(** * Macro-Recorder: a shallow embedding of [app.py]

    The development follows the three classes of the program,
    [MacroRecorder] (capture), [MacroPlayer] (replay) and [MacroManager]
    (persistence), and the Flask routes that glue them together.

    Conventions of the embedding:
    - a Python [dict] with string keys is a [gmap string value];
    - Python numbers ([int], [float]) that take part in timing arithmetic are
      exact rationals [Q]: rounding of binary floating point is not modelled;
    - a Python exception is a value of [exn], and code that may raise lives
      in the [result] monad;
    - the wall clock and the file system, which the program reaches through
      [time.time()], [datetime.now()] and [open], are explicit arguments. *)

From Stdlib Require Import ZArith QArith Lqa String Ascii List Bool Lia.
From stdpp Require Import base option list strings gmap pretty.

Local Open Scope string_scope.
Local Open Scope list_scope.

(** ** Python values, exceptions and the operators the program uses *)

Module Py.

Inductive value : Type :=
| VNone
| VBool (b : bool)
| VInt (z : Z)
| VFloat (q : Q)
| VStr (s : string).

Inductive exn : Type :=
| KeyError (k : string)
| TypeError
| AttributeError
| ZeroDivisionError
| JSONDecodeError
| OSError (path : string).

Inductive result (A : Type) : Type :=
| Ok (a : A)
| Raise (e : exn).
Arguments Ok {A} a.
Arguments Raise {A} e.

Definition bind {A B : Type} (m : result A) (k : A -> result B) : result B :=
  match m with
  | Ok a => k a
  | Raise e => Raise e
  end.

(** An event is the dictionary the recorder builds: [{'type': ..., 'timestamp': ..., ...}]. *)
Abbreviation event := (gmap string value).

(** [d[k]] *)
Definition getitem (d : event) (k : string) : result value :=
  match d !! k with
  | Some v => Ok v
  | None => Raise (KeyError k)
  end.

(** The numeric reading of an operand of [-], [/] or [>]; [bool] is a
    subclass of [int], every other type raises [TypeError]. *)
Definition to_num (v : value) : result Q :=
  match v with
  | VInt z => Ok (inject_Z z)
  | VFloat q => Ok q
  | VBool b => Ok (if b then 1%Q else 0%Q)
  | VNone | VStr _ => Raise TypeError
  end.

(** [a - b] *)
Definition sub (a b : value) : result Q :=
  bind (to_num a) (fun x => bind (to_num b) (fun y => Ok (x - y)%Q)).

(** [a / b]: true division raises on a zero divisor. *)
Definition truediv (a b : Q) : result Q :=
  if Qeq_bool b 0 then Raise ZeroDivisionError else Ok (a / b)%Q.

(** [a > b] on numbers *)
Definition gt (a b : Q) : bool := negb (Qle_bool a b).

(** Truth value of an object in a condition. *)
Definition truthy (v : value) : bool :=
  match v with
  | VNone => false
  | VBool b => b
  | VInt z => negb (Z.eqb z 0)
  | VFloat q => negb (Qeq_bool q 0)
  | VStr s => negb (String.eqb s "")
  end.

(** [len(v)]: defined on strings only among the scalar values.  A string
    is a sequence of one-byte characters. *)
Definition len (v : value) : result nat :=
  match v with
  | VStr s => Ok (String.length s)
  | _ => Raise TypeError
  end.

End Py.
Import Py.

(** [result] is a monad; [x ← m; k] is stdpp's notation for its bind. *)
Global Instance result_ret : MRet result := fun A a => Ok a.
Global Instance result_bind : MBind result := fun A B k m => Py.bind m k.

Global Instance Q_eq_dec : EqDecision Q.
Proof. solve_decision. Defined.
Global Instance value_eq_dec : EqDecision value.
Proof. solve_decision. Defined.
Global Instance exn_eq_dec : EqDecision exn.
Proof. solve_decision. Defined.

(** ** class MacroRecorder *)

Module Recorder.

Record MacroRecorder : Type := {
  events : list event;
  recording : bool;
  start_time : option Q;
  (** a listener object is [Some running] once created *)
  mouse_listener : option bool;
  keyboard_listener : option bool
}.

(** [MacroRecorder.__init__] *)
Definition init : MacroRecorder :=
  {| events := []; recording := false; start_time := None;
     mouse_listener := None; keyboard_listener := None |}.

(** The key object [pynput] hands to the keyboard callbacks: a [KeyCode],
    which has a [char] attribute (possibly [None]), or a member of the
    [Key] enumeration, which has none and prints as ["Key.<name>"]. *)
Inductive key : Type :=
| KeyCode (char : option string)
| Key (name : string).

(** [key.char] *)
Definition key_char_attr (k : key) : result value :=
  match k with
  | KeyCode (Some c) => Ok (VStr c)
  | KeyCode None => Ok VNone
  | Key _ => Raise AttributeError
  end.

(** [str(key)] for a key without [char] *)
Definition key_str (k : key) : string :=
  match k with
  | Key name => "Key." +:+ name
  | KeyCode (Some c) => "'" +:+ c +:+ "'"
  | KeyCode None => "None"
  end.

Section Clock.

(** [time_time n] is what the [n]-th call of [time.time()] returns. *)
Variable time_time : nat -> Q.

(** Methods thread the number of clock readings made so far. *)
Definition M (A : Type) : Type := nat -> result (A * nat).

Definition ret {A} (a : A) : M A := fun n => Ok (a, n).
Definition seq {A B} (m : M A) (k : A -> M B) : M B :=
  fun n => match m n with
           | Ok (a, n') => k a n'
           | Raise e => Raise e
           end.
Definition lift {A} (r : result A) : M A :=
  fun n => match r with Ok a => Ok (a, n) | Raise e => Raise e end.
Definition now : M Q := fun n => Ok (time_time n, S n).

Notation "x <~ m ;; k" := (seq m (fun x => k))
  (at level 100, m at next level, right associativity).

Definition append (self : MacroRecorder) (e : event) : MacroRecorder :=
  {| events := events self ++ [e]; recording := recording self;
     start_time := start_time self;
     mouse_listener := mouse_listener self;
     keyboard_listener := keyboard_listener self |}.

(** [if self.start_time]: [None] and [0.0] are false. *)
Definition start_time_truthy (self : MacroRecorder) : option Q :=
  match start_time self with
  | Some st => if Qeq_bool st 0 then None else Some st
  | None => None
  end.

(** [return time.time() - self.start_time if self.start_time else 0] *)
Definition _get_timestamp (self : MacroRecorder) : M value :=
  match start_time_truthy self with
  | Some st => t <~ now ;; ret (VFloat (t - st))
  | None => ret (VInt 0)
  end.

Definition start_recording (self : MacroRecorder) : M (bool * MacroRecorder) :=
  if recording self then ret (false, self)
  else
    t <~ now ;;
    ret (true,
         {| events := []; recording := true; start_time := Some t;
            mouse_listener := Some true; keyboard_listener := Some true |}).

Definition stop_listener (l : option bool) : option bool :=
  match l with Some _ => Some false | None => None end.

Definition stop_recording (self : MacroRecorder) : bool * MacroRecorder :=
  if negb (recording self) then (false, self)
  else
    (true,
     {| events := events self; recording := false;
        start_time := start_time self;
        mouse_listener := stop_listener (mouse_listener self);
        keyboard_listener := stop_listener (keyboard_listener self) |}).

(** [return self.events.copy()] *)
Definition get_events (self : MacroRecorder) : list event := events self.

Definition _on_mouse_click (self : MacroRecorder) (x y : value)
    (button : string) (pressed : bool) : M MacroRecorder :=
  if recording self then
    ts <~ _get_timestamp self ;;
    ret (append self
           {[ "type" := VStr "mouse_click"; "timestamp" := ts;
              "x" := x; "y" := y;
              "button" := VStr button; "pressed" := VBool pressed ]})
  else ret self.

(** The condition of the throttle:
    [not self.events or self.events[-1]['type'] != 'mouse_move'
     or self._get_timestamp() - self.events[-1]['timestamp'] > 0.1],
    evaluated left to right with short circuit. *)
Definition move_condition (self : MacroRecorder) : M bool :=
  match last (events self) with
  | None => ret true
  | Some prev =>
      ty <~ lift (getitem prev "type") ;;
      if bool_decide (ty = VStr "mouse_move") then
        t <~ _get_timestamp self ;;
        pts <~ lift (getitem prev "timestamp") ;;
        d <~ lift (sub t pts) ;;
        ret (gt d (1 # 10))
      else ret true
  end.

Definition _on_mouse_move (self : MacroRecorder) (x y : value) : M MacroRecorder :=
  if recording self then
    c <~ move_condition self ;;
    if c then
      ts <~ _get_timestamp self ;;
      ret (append self
             {[ "type" := VStr "mouse_move"; "timestamp" := ts;
                "x" := x; "y" := y ]})
    else ret self
  else ret self.

Definition _on_mouse_scroll (self : MacroRecorder) (x y dx dy : value) : M MacroRecorder :=
  if recording self then
    ts <~ _get_timestamp self ;;
    ret (append self
           {[ "type" := VStr "mouse_scroll"; "timestamp" := ts;
              "x" := x; "y" := y; "dx" := dx; "dy" := dy ]})
  else ret self.

(** [try: key_char = key.char / except AttributeError: key_char = str(key)] *)
Definition key_symbol (k : key) : value :=
  match key_char_attr k with
  | Ok v => v
  | Raise _ => VStr (key_str k)
  end.

Definition _on_key_press (self : MacroRecorder) (k : key) : M MacroRecorder :=
  if recording self then
    let key_char := key_symbol k in
    ts <~ _get_timestamp self ;;
    ret (append self
           {[ "type" := VStr "key_press"; "timestamp" := ts;
              "key" := key_char ]})
  else ret self.

Definition _on_key_release (self : MacroRecorder) (k : key) : M MacroRecorder :=
  if recording self then
    let key_char := key_symbol k in
    ts <~ _get_timestamp self ;;
    ret (append self
           {[ "type" := VStr "key_release"; "timestamp" := ts;
              "key" := key_char ]})
  else ret self.

(** A device notification delivered to the recorder. *)
Inductive notification : Type :=
| OnClick (x y : value) (button : string) (pressed : bool)
| OnMove (x y : value)
| OnScroll (x y dx dy : value)
| OnKeyPress (k : key)
| OnKeyRelease (k : key).

Definition deliver (self : MacroRecorder) (n : notification) : M MacroRecorder :=
  match n with
  | OnClick x y b p => _on_mouse_click self x y b p
  | OnMove x y => _on_mouse_move self x y
  | OnScroll x y dx dy => _on_mouse_scroll self x y dx dy
  | OnKeyPress k => _on_key_press self k
  | OnKeyRelease k => _on_key_release self k
  end.

(** Notifications delivered one after the other. *)
Fixpoint deliver_all (self : MacroRecorder) (ns : list notification) : M MacroRecorder :=
  match ns with
  | [] => ret self
  | n :: ns' => self' <~ deliver self n ;; deliver_all self' ns'
  end.

End Clock.

End Recorder.

(** ** class MacroPlayer *)

Module Player.

(** [s.split('.')[-1]]: the part of [s] after its last dot. *)
Fixpoint after_last_dot_from (acc : string) (s : string) : string :=
  match s with
  | EmptyString => acc
  | String c s' =>
      if Ascii.eqb c "."%char then after_last_dot_from "" s'
      else after_last_dot_from (acc +:+ String c "") s'
  end.
Definition after_last_dot (s : string) : string := after_last_dot_from "" s.

(** [s.startswith(p)] *)
Definition startswith (p s : string) : bool := String.prefix p s.

(** What [_parse_key] hands to the keyboard controller: the string itself,
    or a member of [keyboard.Key]. *)
Inductive parsed_key : Type :=
| Literal (s : string)
| Special (name : string).

(** A call on [mouse.Controller] or [keyboard.Controller]. *)
Inductive device_call : Type :=
| SetPosition (x y : value)
| MousePress (button : string)
| MouseRelease (button : string)
| MouseScroll (dx dy : value)
| KeyboardPress (k : parsed_key)
| KeyboardRelease (k : parsed_key).

Section Devices.

(** The member names of the enumerations [mouse.Button] and
    [keyboard.Key] of [pynput], which [getattr] consults. *)
Variable mouse_Button : string -> bool.
Variable keyboard_Key : string -> bool.

(** [MacroPlayer._parse_key] *)
Definition _parse_key (key_str : value) : result parsed_key :=
  n ← len key_str;
  match key_str with
  | VStr s =>
      if Nat.eqb n 1 then Ok (Literal s)
      else if startswith "Key." s then
        let key_name := after_last_dot s in
        (* getattr(keyboard.Key, key_name, key_str) *)
        Ok (if keyboard_Key key_name then Special key_name else Literal s)
      else Ok (Literal s)
  | _ => Raise TypeError
  end.

(** [getattr(mouse.Button, event['button'].split('.')[-1])] *)
Definition lookup_button (b : value) : result string :=
  match b with
  | VStr s =>
      let name := after_last_dot s in
      if mouse_Button name then Ok name else Raise AttributeError
  | _ => Raise AttributeError
  end.

(** [self.mouse_controller.position = (event['x'], event['y'])] *)
Definition position_of (event : event) : result device_call :=
  x ← getitem event "x"; y ← getitem event "y"; Ok (SetPosition x y).

(** The calls issued by a first statement and by the statements after
    it: an exception ends the [try] and keeps the calls already made. *)
Definition calls_then (first : result device_call)
    (rest : result (list device_call)) : list device_call :=
  match first with
  | Ok c => c :: match rest with Ok cs => cs | Raise _ => [] end
  | Raise _ => []
  end.

Definition type_is (ty : value) (name : string) : bool :=
  bool_decide (ty = VStr name).

(** [MacroPlayer._execute_event]: every exception is caught and printed,
    so the method always returns; the result lists the controller calls
    it made. *)
Definition _execute_event (event : event) : list device_call :=
  match getitem event "type" with
  | Raise _ => []
  | Ok ty =>
      if type_is ty "mouse_click" then
        calls_then (position_of event)
          (b ← getitem event "button";
           button ← lookup_button b;
           pressed ← getitem event "pressed";
           Ok [if truthy pressed then MousePress button
               else MouseRelease button])
      else if type_is ty "mouse_move" then
        calls_then (position_of event) (Ok [])
      else if type_is ty "mouse_scroll" then
        calls_then (position_of event)
          (dx ← getitem event "dx"; dy ← getitem event "dy";
           Ok [MouseScroll dx dy])
      else if type_is ty "key_press" then
        match (k ← getitem event "key"; _parse_key k) with
        | Ok key => [KeyboardPress key]
        | Raise _ => []
        end
      else if type_is ty "key_release" then
        match (k ← getitem event "key"; _parse_key k) with
        | Ok key => [KeyboardRelease key]
        | Raise _ => []
        end
      else []
  end.

End Devices.

(** *** The replay workers

    A worker runs concurrently with the thread that started it.  Each is a
    transition system whose states are the points of the method between
    two accesses to the shared flags, a sleep or a dispatch. *)

(** What a worker does that the outside can see. *)
Inductive action : Type :=
| Sleep (seconds : Q)            (* time.sleep(seconds) *)
| Execute (e : event)            (* self._execute_event(e) *)
| Print (e : exn).               (* print(f"Playback error: {e}") *)

Record MacroPlayer : Type := {
  playing : bool;
  loop_playing : bool;
  play_thread : option nat;      (* index in the table of threads *)
  stop_listener : option nat     (* index in the table of listeners *)
}.

Definition init : MacroPlayer :=
  {| playing := false; loop_playing := false;
     play_thread := None; stop_listener := None |}.

Definition set_playing (b : bool) (self : MacroPlayer) : MacroPlayer :=
  {| playing := b; loop_playing := loop_playing self;
     play_thread := play_thread self; stop_listener := stop_listener self |}.
Definition set_loop_playing (b : bool) (self : MacroPlayer) : MacroPlayer :=
  {| playing := playing self; loop_playing := b;
     play_thread := play_thread self; stop_listener := stop_listener self |}.

(** [wait_time = (event['timestamp'] - last_timestamp) / speed], together
    with the numeric reading of [event['timestamp']]. *)
Definition wait_time (event : event) (last_timestamp speed : Q) : result (Q * Q) :=
  ts ← getitem event "timestamp";
  t ← to_num ts;
  w ← truediv (t - last_timestamp)%Q speed;
  Ok (t, w).

(** Control points of [_play_events]. *)
Inductive fstate : Type :=
| FOuter (todo : nat)
    (* head of [for _ in range(repeat)], [todo] iterations to go *)
| FInner (todo : nat) (rest : list event) (last_timestamp : Q)
    (* head of [for event in events] *)
| FSleep (todo : nat) (e : event) (rest : list event) (t w : Q)
    (* before [time.sleep(wait_time)] *)
| FExec (todo : nat) (e : event) (rest : list event) (t : Q)
    (* before [self._execute_event(event)] *)
| FExcept (e : exn)
    (* in the [except] clause *)
| FFinally
    (* before [self.playing = False] *)
| FDone.

(** One step of [_play_events(events, speed, repeat)]. *)
Definition step_finite (events : list event) (speed : Q)
    (st : fstate) (self : MacroPlayer) : fstate * MacroPlayer * list action :=
  match st with
  | FOuter 0 => (FFinally, self, [])
  | FOuter (S todo) =>
      (* if not self.playing: break *)
      if negb (playing self) then (FFinally, self, [])
      else (FInner todo events 0, self, [])
  | FInner todo [] _ => (FOuter todo, self, [])
  | FInner todo (e :: rest) last_timestamp =>
      (* if not self.playing: break *)
      if negb (playing self) then (FOuter todo, self, [])
      else
        match wait_time e last_timestamp speed with
        | Raise err => (FExcept err, self, [])
        | Ok (t, w) =>
            if gt w 0 then (FSleep todo e rest t w, self, [])
            else (FExec todo e rest t, self, [])
        end
  | FSleep todo e rest t w => (FExec todo e rest t, self, [Sleep w])
  | FExec todo e rest t => (FInner todo rest t, self, [Execute e])
  | FExcept err => (FFinally, self, [Print err])
  | FFinally => (FDone, set_playing false self, [])
  | FDone => (FDone, self, [])
  end.

(** The worker left to run on its own for [fuel] steps. *)
Fixpoint run_finite (events : list event) (speed : Q) (fuel : nat)
    (st : fstate) (self : MacroPlayer) : fstate * MacroPlayer * list action :=
  match fuel with
  | 0 => (st, self, [])
  | S fuel' =>
      let '(st', self', out) := step_finite events speed st self in
      let '(st'', self'', out') := run_finite events speed fuel' st' self' in
      (st'', self'', out ++ out')
  end.

(** A hotkey listener: [GlobalHotKeys] or the fallback [keyboard.Listener]. *)
Record listener : Type := {
  global_hotkeys : bool;
  running : bool
}.

(** [self.stop_listener.stop()] under [if self.stop_listener:] *)
Definition stop_current_listener (self : MacroPlayer)
    (listeners : list listener) : list listener :=
  match stop_listener self with
  | Some i =>
      match listeners !! i with
      | Some l => <[i := {| global_hotkeys := global_hotkeys l; running := false |}]> listeners
      | None => listeners
      end
  | None => listeners
  end.

(** Control points of [_play_events_loop]. *)
Inductive lstate : Type :=
| LWhile (loop_count : nat)
    (* [while self.loop_playing ...]: reads [loop_playing] *)
| LWhile' (loop_count : nat)
    (* [... and self.playing]: reads [playing] *)
| LFor (loop_count : nat) (rest : list event) (last_timestamp : Q)
    (* head of [for event in events]; [if not self.loop_playing ...] *)
| LFor' (loop_count : nat) (e : event) (rest : list event) (last_timestamp : Q)
    (* [... or not self.playing: break] *)
| LSleep (loop_count : nat) (e : event) (rest : list event) (t w : Q)
| LExec (loop_count : nat) (e : event) (rest : list event) (t : Q)
| LAfter (loop_count : nat)
    (* [if self.loop_playing ...] after the pass *)
| LAfter' (loop_count : nat)
    (* [... and self.playing and delay_between_loops > 0] *)
| LDelay (loop_count : nat)
    (* before [time.sleep(delay_between_loops)] *)
| LExcept (loop_count : nat) (e : exn)
| LFinally (loop_count : nat)
    (* before [self.loop_playing = False] *)
| LFinally' (loop_count : nat)
    (* before [self.playing = False] *)
| LFinally'' (loop_count : nat)
    (* before [if self.stop_listener: self.stop_listener.stop()] *)
| LDone (loop_count : nat).

(** One step of [_play_events_loop(events, speed, delay_between_loops)]. *)
Definition step_loop (events : list event) (speed delay_between_loops : Q)
    (st : lstate) (self : MacroPlayer) (listeners : list listener)
    : lstate * MacroPlayer * list listener * list action :=
  match st with
  | LWhile c =>
      if loop_playing self then (LWhile' c, self, listeners, [])
      else (LFinally c, self, listeners, [])
  | LWhile' c =>
      if playing self then (LFor (S c) events 0, self, listeners, [])
      else (LFinally c, self, listeners, [])
  | LFor c [] _ => (LAfter c, self, listeners, [])
  | LFor c (e :: rest) last_timestamp =>
      if negb (loop_playing self) then (LAfter c, self, listeners, [])
      else (LFor' c e rest last_timestamp, self, listeners, [])
  | LFor' c e rest last_timestamp =>
      if negb (playing self) then (LAfter c, self, listeners, [])
      else
        match wait_time e last_timestamp speed with
        | Raise err => (LExcept c err, self, listeners, [])
        | Ok (t, w) =>
            if gt w 0 then (LSleep c e rest t w, self, listeners, [])
            else (LExec c e rest t, self, listeners, [])
        end
  | LSleep c e rest t w => (LExec c e rest t, self, listeners, [Sleep w])
  | LExec c e rest t => (LFor c rest t, self, listeners, [Execute e])
  | LAfter c =>
      if loop_playing self then (LAfter' c, self, listeners, [])
      else (LWhile c, self, listeners, [])
  | LAfter' c =>
      if playing self && gt delay_between_loops 0
      then (LDelay c, self, listeners, [])
      else (LWhile c, self, listeners, [])
  | LDelay c => (LWhile c, self, listeners, [Sleep delay_between_loops])
  | LExcept c err => (LFinally c, self, listeners, [Print err])
  | LFinally c => (LFinally' c, set_loop_playing false self, listeners, [])
  | LFinally' c => (LFinally'' c, set_playing false self, listeners, [])
  | LFinally'' c =>
      (LDone c, self, stop_current_listener self listeners, [])
  | LDone c => (LDone c, self, listeners, [])
  end.

(** *** Threads and the scheduler

    The program has one [MacroPlayer] shared by the control thread (the
    one that serves the requests), the workers it starts and the thread of
    the hotkey listener.  The interpreter runs one thread at a time and
    may switch between any two steps; a schedule is the list of those
    choices. *)

Inductive worker : Type :=
| Finite (events : list event) (speed : Q) (repeat : Z) (st : fstate)
    (* Thread(target=self._play_events, args=(events, speed, repeat)) *)
| Loop (events : list event) (speed delay_between_loops : Q) (st : lstate).
    (* Thread(target=self._play_events_loop, args=(...)) *)

(** The thread has returned from its target. *)
Definition finished (w : worker) : bool :=
  match w with
  | Finite _ _ _ FDone => true
  | Loop _ _ _ (LDone _) => true
  | _ => false
  end.

Inductive obs : Type :=
| Started (tid : nat)              (* self.play_thread.start() *)
| Did (tid : nat) (a : action)     (* an action of worker [tid] *)
| StopReturned.                    (* stop_playback() has returned *)

(** The control thread is between two calls, or blocked in the
    [self.play_thread.join()] of [stop_playback]. *)
Inductive control : Type :=
| Idle
| Joining (t : option nat).

Record system : Type := {
  self : MacroPlayer;
  threads : list worker;
  listeners : list listener;
  control_thread : control;
  trace : list obs
}.

Definition boot : system :=
  {| self := init; threads := []; listeners := [];
     control_thread := Idle; trace := [] |}.

(** [MacroPlayer.play_macro] *)
Definition play_macro (events : list event) (speed : Q) (repeat : Z)
    (s : system) : bool * system :=
  if playing (self s) then (false, s)
  else
    let tid := length (threads s) in
    (true,
     {| self := {| playing := true;
                   loop_playing := loop_playing (self s);
                   play_thread := Some tid;
                   stop_listener := stop_listener (self s) |};
        threads := threads s ++ [Finite events speed repeat (FOuter (Z.to_nat repeat))];
        listeners := listeners s;
        control_thread := control_thread s;
        trace := trace s ++ [Started tid] |}).

(** [MacroPlayer.play_macro_loop]; [hotkeys_available] tells whether
    [GlobalHotKeys] could be started or [_start_stop_listener] fell back
    on the plain listener. *)
Definition play_macro_loop (events : list event) (speed delay_between_loops : Q)
    (hotkeys_available : bool) (s : system) : bool * system :=
  if playing (self s) || loop_playing (self s) then (false, s)
  else
    let tid := length (threads s) in
    let lid := length (listeners s) in
    (true,
     {| self := {| playing := true;
                   loop_playing := true;
                   play_thread := Some tid;
                   stop_listener := Some lid |};
        threads := threads s ++ [Loop events speed delay_between_loops (LWhile 0)];
        listeners := listeners s ++
                     [{| global_hotkeys := hotkeys_available; running := true |}];
        control_thread := control_thread s;
        trace := trace s ++ [Started tid] |}).

(** [MacroPlayer.stop_playback] up to its [join]: the flags are cleared,
    the listener is stopped, and the caller waits for [self.play_thread]. *)
Definition stop_playback_enter (s : system) : system :=
  let self' := set_loop_playing false (set_playing false (self s)) in
  {| self := self';
     threads := threads s;
     listeners := stop_current_listener self' (listeners s);
     control_thread := Joining (play_thread self');
     trace := trace s |}.

(** The [join] of [stop_playback] returns once the thread has finished
    (at once when there is no thread); then [stop_playback] returns. *)
Definition stop_playback_return (s : system) : option system :=
  match control_thread s with
  | Idle => None
  | Joining t =>
      let ready :=
        match t with
        | None => true
        | Some tid =>
            match threads s !! tid with
            | Some w => finished w
            | None => false
            end
        end in
      if ready then
        Some {| self := self s; threads := threads s;
                listeners := listeners s; control_thread := Idle;
                trace := trace s ++ [StopReturned] |}
      else None
  end.

(** [MacroPlayer.stop_loop_playback], which the listener's thread runs
    when the hotkey fires, up to its [join] (which changes nothing). *)
Definition stop_loop_playback_enter (s : system) : system :=
  let self' := set_playing false (set_loop_playing false (self s)) in
  {| self := self';
     threads := threads s;
     listeners := stop_current_listener self' (listeners s);
     control_thread := control_thread s;
     trace := trace s |}.

(** One step of worker [tid]. *)
Definition step_worker (tid : nat) (w : worker) (s : system) : system :=
  match w with
  | Finite events speed repeat st =>
      let '(st', self', out) := step_finite events speed st (self s) in
      {| self := self';
         threads := <[tid := Finite events speed repeat st']> (threads s);
         listeners := listeners s;
         control_thread := control_thread s;
         trace := trace s ++ map (Did tid) out |}
  | Loop events speed delay st =>
      let '(st', self', listeners', out) :=
        step_loop events speed delay st (self s) (listeners s) in
      {| self := self';
         threads := <[tid := Loop events speed delay st']> (threads s);
         listeners := listeners';
         control_thread := control_thread s;
         trace := trace s ++ map (Did tid) out |}
  end.

Inductive choice : Type :=
| Run (tid : nat)
    (* worker [tid] takes a step *)
| CallPlay (events : list event) (speed : Q) (repeat : Z)
    (* the control thread calls [play_macro] *)
| CallLoop (events : list event) (speed delay : Q) (hotkeys_available : bool)
    (* the control thread calls [play_macro_loop] *)
| CallStop
    (* the control thread calls [stop_playback] and reaches the [join] *)
| ReturnStop
    (* the [join] is over and [stop_playback] returns *)
| Hotkey (lid : nat).
    (* listener [lid] sees its key and runs [stop_loop_playback] *)

Definition is_idle (s : system) : bool :=
  match control_thread s with Idle => true | Joining _ => false end.

(** The effect of a choice, [None] when it is not enabled. *)
Definition exec (c : choice) (s : system) : option system :=
  match c with
  | Run tid =>
      match threads s !! tid with
      | Some w => if finished w then None else Some (step_worker tid w s)
      | None => None
      end
  | CallPlay events speed repeat =>
      if is_idle s then Some (snd (play_macro events speed repeat s)) else None
  | CallLoop events speed delay hk =>
      if is_idle s then Some (snd (play_macro_loop events speed delay hk s)) else None
  | CallStop =>
      if is_idle s then Some (stop_playback_enter s) else None
  | ReturnStop => stop_playback_return s
  | Hotkey lid =>
      match listeners s !! lid with
      | Some l => if running l then Some (stop_loop_playback_enter s) else None
      | None => None
      end
  end.

Fixpoint run (sched : list choice) (s : system) : option system :=
  match sched with
  | [] => Some s
  | c :: sched' =>
      match exec c s with
      | Some s' => run sched' s'
      | None => None
      end
  end.

(** Reading a trace from left to right: the threads started so far, the
    threads that existed when [stop_playback] last returned, and whether
    one of the latter has dispatched an event since. *)
Record audit : Type := {
  started : list nat;
  stopped : list nat;
  late_dispatch : bool
}.

Definition audit_step (a : audit) (o : obs) : audit :=
  match o with
  | Started tid =>
      {| started := tid :: started a; stopped := stopped a;
         late_dispatch := late_dispatch a |}
  | StopReturned =>
      {| started := started a; stopped := started a;
         late_dispatch := late_dispatch a |}
  | Did tid (Execute _) =>
      {| started := started a; stopped := stopped a;
         late_dispatch := late_dispatch a || bool_decide (tid ∈ stopped a) |}
  | Did _ _ => a
  end.

Definition audit_trace (tr : list obs) : audit :=
  fold_left audit_step tr
    {| started := []; stopped := []; late_dispatch := false |}.

(** Some worker that existed when a [stop_playback] returned dispatched an
    event after that return. *)
Definition dispatch_after_stop (tr : list obs) : bool :=
  late_dispatch (audit_trace tr).

Definition is_hotkey (c : choice) : bool :=
  match c with Hotkey _ => true | _ => false end.

End Player.

(** ** class MacroManager *)

Module Manager.

(** What [datetime.now()] returns. *)
Record datetime : Type := {
  year : nat; month : nat; day : nat;
  hour : nat; minute : nat; second : nat;
  microsecond : nat
}.

(** [n] in decimal, padded with zeros on the left to [width] digits. *)
Definition zero_pad (width n : nat) : string :=
  let digits := pretty n in
  String.concat "" (replicate (width - String.length digits) "0") +:+ digits.

(** [d.strftime("%Y%m%d_%H%M%S")] *)
Definition strftime_Ymd_HMS (d : datetime) : string :=
  zero_pad 4 (year d) +:+ zero_pad 2 (month d) +:+ zero_pad 2 (day d) +:+ "_" +:+
  zero_pad 2 (hour d) +:+ zero_pad 2 (minute d) +:+ zero_pad 2 (second d).

(** [d.isoformat()] *)
Definition isoformat (d : datetime) : string :=
  zero_pad 4 (year d) +:+ "-" +:+ zero_pad 2 (month d) +:+ "-" +:+ zero_pad 2 (day d) +:+
  "T" +:+ zero_pad 2 (hour d) +:+ ":" +:+ zero_pad 2 (minute d) +:+ ":" +:+
  zero_pad 2 (second d) +:+
  (if Nat.eqb (microsecond d) 0 then "" else "." +:+ zero_pad 6 (microsecond d)).

(** [f"{q:.1f}"] on an exact rational: the nearest multiple of one tenth,
    a tie going to the even one. *)
Definition round_tenths (q : Q) : Z :=
  let n := (Z.abs (Qnum q) * 10)%Z in
  let d := Zpos (Qden q) in
  let f := (n / d)%Z in
  let r := (n mod d)%Z in
  match (2 * r ?= d)%Z with
  | Lt => f
  | Gt => (f + 1)%Z
  | Eq => if Z.even f then f else (f + 1)%Z
  end.

Definition format_1f (q : Q) : string :=
  let t := round_tenths q in
  (if (Qnum q <? 0)%Z then "-" else "") +:+
  pretty (t / 10)%Z +:+ "." +:+ pretty (t mod 10)%Z.

(** The dictionary [macro_data] that [save_macro] builds and [json.load]
    gives back. *)
Record macro_data : Type := {
  name : string;
  description : string;
  created : string;
  events : list event
}.

(** What a file holds: the JSON document of a [macro_data], or something
    [json.load] cannot read.  The layout of the text ([indent=2]) and the
    printing of numbers are not modelled. *)
Inductive content : Type :=
| Json (d : macro_data)
| Unreadable.

(** The files, by path, and the paths that [open(path, 'w')] refuses. *)
Record filesystem : Type := {
  files : gmap string content;
  refused : gset string
}.

Record MacroManager : Type := {
  macros_dir : string
}.

(** [MacroManager.__init__] with the default argument *)
Definition init : MacroManager := {| macros_dir := "macros" |}.

(** [self.macros_dir / f"{name}.json"] *)
Definition filepath (self : MacroManager) (name : string) : string :=
  macros_dir self +:+ "/" +:+ name +:+ ".json".

(** [with open(filepath, 'w') as f: json.dump(macro_data, f, indent=2)] *)
Definition write_json (path : string) (d : macro_data) (fs : filesystem)
    : result filesystem :=
  if bool_decide (path ∈ refused fs) then Raise (OSError path)
  else Ok {| files := <[path := Json d]> (files fs); refused := refused fs |}.

(** [MacroManager.save_macro]; [now] is the reading of [datetime.now()]. *)
Definition save_macro (self : MacroManager) (now : datetime)
    (name : string) (events : list event) (description : string)
    (fs : filesystem) : result (string * filesystem) :=
  let macro_data :=
    {| name := name; description := description;
       created := isoformat now; events := events |} in
  let path := filepath self name in
  fs' ← write_json path macro_data fs;
  Ok (path, fs').

(** [sum(1 for e in events if e['type'] == 'mouse_click' and e['pressed'])] *)
Fixpoint count_mouse_clicks (events : list event) : result nat :=
  match events with
  | [] => Ok 0
  | e :: rest =>
      ty ← getitem e "type";
      hit ← (if bool_decide (ty = VStr "mouse_click")
             then p ← getitem e "pressed"; Ok (truthy p)
             else Ok false);
      n ← count_mouse_clicks rest;
      Ok (if hit : bool then S n else n)
  end.

(** [sum(1 for e in events if e['type'] == 'key_press')] *)
Fixpoint count_key_presses (events : list event) : result nat :=
  match events with
  | [] => Ok 0
  | e :: rest =>
      ty ← getitem e "type";
      n ← count_key_presses rest;
      Ok (if bool_decide (ty = VStr "key_press") then S n else n)
  end.

(** [events[-1]['timestamp'] - events[0]['timestamp'] if len(events) > 1 else 0] *)
Definition duration_of (events : list event) : result Q :=
  match events with
  | first :: _ :: _ =>
      match last events with
      | Some final =>
          a ← getitem final "timestamp";
          b ← getitem first "timestamp";
          sub a b
      | None => Ok 0%Q
      end
  | _ => Ok 0%Q
  end.

(** [MacroManager.auto_save_macro]; [now] is read for the name, [now']
    by the [save_macro] it calls. *)
Definition auto_save_macro (self : MacroManager) (now now' : datetime)
    (events : list event) (fs : filesystem) : result (string * filesystem) :=
  match events with
  | [] => Ok ("", fs)
  | _ =>
      let timestamp := strftime_Ymd_HMS now in
      let name := "macro_" +:+ timestamp in
      mouse_clicks ← count_mouse_clicks events;
      key_presses ← count_key_presses events;
      duration ← duration_of events;
      let description :=
        "Auto-saved macro: " +:+ pretty mouse_clicks +:+ " clicks, " +:+
        pretty key_presses +:+ " key presses, " +:+
        format_1f duration +:+ "s duration" in
      save_macro self now' name events description fs
  end.

(** [MacroManager.load_macro]; [json.load] raises on a file it cannot
    read. *)
Definition load_macro (self : MacroManager) (name : string)
    (fs : filesystem) : result (option macro_data) :=
  match files fs !! filepath self name with
  | None => Ok None
  | Some (Json d) => Ok (Some d)
  | Some Unreadable => Raise JSONDecodeError
  end.

(** [MacroManager.delete_macro] *)
Definition delete_macro (self : MacroManager) (name : string)
    (fs : filesystem) : bool * filesystem :=
  match files fs !! filepath self name with
  | Some _ =>
      (true, {| files := delete (filepath self name) (files fs);
                refused := refused fs |})
  | None => (false, fs)
  end.

End Manager.

(** ** The Flask routes *)

Module Routes.

(** [c.isspace()] for the characters [str.strip()] removes. *)
Definition is_space (c : ascii) : bool :=
  let n := nat_of_ascii c in
  Nat.eqb n 32 || (Nat.leb 9 n && Nat.leb n 13) || (Nat.leb 28 n && Nat.leb n 31).

Fixpoint lstrip (s : string) : string :=
  match s with
  | String c s' => if is_space c then lstrip s' else s
  | EmptyString => EmptyString
  end.

Fixpoint rstrip (s : string) : string :=
  match s with
  | String c s' =>
      match rstrip s' with
      | EmptyString => if is_space c then EmptyString else String c EmptyString
      | t => String c t
      end
  | EmptyString => EmptyString
  end.

(** [v.strip()]: only a string has the method. *)
Definition strip (v : value) : result string :=
  match v with
  | VStr s => Ok (rstrip (lstrip s))
  | _ => Raise AttributeError
  end.

(** The process-wide objects [recorder] and [manager], with the file
    system the manager writes to. *)
Record app : Type := {
  recorder : Recorder.MacroRecorder;
  manager : Manager.MacroManager;
  disk : Manager.filesystem
}.

(** What the server prints. *)
Inductive log_line : Type :=
| AutoSaved (filepath : string)
| AutoSaveFailed (e : exn).

(** The JSON object [stop_recording] answers with. *)
Record stop_response : Type := {
  success : bool;
  events : list event;
  auto_saved : bool
}.

(** The route [/stop_recording]; [now], [now'] are the readings of
    [datetime.now()] the autosave would make. *)
Definition stop_recording (now now' : Manager.datetime) (a : app)
    : stop_response * list log_line * app :=
  let '(success, recorder') := Recorder.stop_recording (recorder a) in
  let '(printed, disk') :=
    if success && negb (bool_decide (Recorder.events recorder' = []))
    then
      match Manager.auto_save_macro (manager a) now now'
              (Recorder.events recorder') (disk a) with
      | Ok (filepath, disk') => ([AutoSaved filepath], disk')
      | Raise e => ([AutoSaveFailed e], disk a)
      end
    else ([], disk a) in
  ({| success := success;
      events := if success then Recorder.events recorder' else [];
      auto_saved := success && Nat.ltb 0 (length (Recorder.events recorder')) |},
   printed,
   {| recorder := recorder'; manager := manager a; disk := disk' |}).

(** The body of a [/save_macro] request: the keys it has. *)
Record save_request : Type := {
  req_name : option value;
  req_description : option value;
  req_events : option (list event)
}.

(** [data.get(key, default)] *)
Definition get {A} (field : option A) (default : A) : A :=
  match field with Some v => v | None => default end.

(** The JSON object [/save_macro] answers with. *)
Inductive save_response : Type :=
| Saved (filepath : string)           (* {'success': True, 'filepath': ...} *)
| NameRequired                        (* {'success': False, 'error': 'Name is required'} *)
| Failed (e : exn).                   (* {'success': False, 'error': str(e)} *)

(** The route [/save_macro] *)
Definition save_macro (now : Manager.datetime) (req : save_request) (a : app)
    : save_response * app :=
  let body :=
    name ← strip (get (req_name req) (VStr ""));
    description ← strip (get (req_description req) (VStr ""));
    let events := get (req_events req) [] in
    if String.eqb name "" then Ok (NameRequired, a)
    else
      '(filepath, disk') ← Manager.save_macro (manager a) now name events description (disk a);
      Ok (Saved filepath,
          {| recorder := recorder a; manager := manager a; disk := disk' |}) in
  match body with
  | Ok r => r
  | Raise e => (Failed e, a)
  end.

Definition is_success (r : save_response) : bool :=
  match r with Saved _ => true | _ => false end.

End Routes.

(** ** The loop worker on its own *)

Module Replay.

(** The worker of [_play_events_loop] left to run on its own for [fuel]
    steps. *)
Fixpoint run_loop (events : list event) (speed delay_between_loops : Q)
    (fuel : nat) (st : Player.lstate) (self : Player.MacroPlayer)
    (listeners : list Player.listener)
    : Player.lstate * Player.MacroPlayer * list Player.listener * list Player.action :=
  match fuel with
  | 0 => (st, self, listeners, [])
  | S fuel' =>
      let '(st', self', listeners', out) :=
        Player.step_loop events speed delay_between_loops st self listeners in
      let '(st'', self'', listeners'', out') :=
        run_loop events speed delay_between_loops fuel' st' self' listeners' in
      (st'', self'', listeners'', out ++ out')
  end.

End Replay.

(** ** MacroManager.list_macros *)

Module Catalog.

(** An entry of the list [list_macros] returns. *)
Record summary : Type := {
  name : string;
  description : string;
  created : string;
  events_count : nat
}.

(** [s] with the prefix [p] taken off, when it starts with [p]. *)
Fixpoint drop_prefix (p s : string) : option string :=
  match p, s with
  | EmptyString, _ => Some s
  | String a p', String b s' => if Ascii.eqb a b then drop_prefix p' s' else None
  | String _ _, EmptyString => None
  end.

(** [s.endswith(suffix)] *)
Fixpoint endswith (suffix s : string) : bool :=
  String.eqb suffix s ||
  match s with
  | String _ s' => endswith suffix s'
  | EmptyString => false
  end.

(** A slash occurs in [s]. *)
Fixpoint has_slash (s : string) : bool :=
  match s with
  | EmptyString => false
  | String c s' => Ascii.eqb c "/" || has_slash s'
  end.

(** [path] is one of [self.macros_dir.glob("*.json")]: a file right inside
    the directory whose name ends in [.json]. *)
Definition in_glob (self : Manager.MacroManager) (path : string) : bool :=
  match drop_prefix (Manager.macros_dir self) path with
  | Some (String c base) =>
      Ascii.eqb c "/" && negb (has_slash base) && endswith ".json" base
  | _ => false
  end.

(** The body of the loop for one file: the summary that is appended, or
    nothing when reading the file raised.  Every document here has the four
    keys, so the defaults of [data.get] play no part. *)
Definition summarize (c : Manager.content) : option summary :=
  match c with
  | Manager.Json d =>
      Some {| name := Manager.name d;
              description := Manager.description d;
              created := Manager.created d;
              events_count := length (Manager.events d) |}
  | Manager.Unreadable => None
  end.

(** [MacroManager.list_macros]: the summaries it returns, and the paths of
    the files it printed an error for.  The files come in the order [glob]
    yields them, which is not specified; here the order of [map_to_list]. *)
Definition list_macros (self : Manager.MacroManager) (fs : Manager.filesystem)
    : list summary * list string :=
  foldr (λ (pc : string * Manager.content) (acc : list summary * list string),
           if in_glob self pc.1 then
             match summarize pc.2 with
             | Some x => (x :: acc.1, acc.2)
             | None => (acc.1, pc.1 :: acc.2)
             end
           else acc)
        ([], []) (map_to_list (Manager.files fs)).

End Catalog.

(** ** The routes that replay and delete stored sequences *)

Module Server.

(** The body of a [/play_saved_macro] request: the keys it has.  The name
    is taken to be a string and the numbers to be numbers, as the page
    sends them. *)
Record play_saved_request : Type := {
  req_name : option string;
  req_speed : option Q;
  req_repeat : option Z
}.

(** The JSON object [/play_saved_macro] answers with. *)
Inductive play_response : Type :=
| Played (success : bool)             (* {'success': success} *)
| NotFound                            (* {'success': False, 'error': 'Macro not found'} *)
| PlayFailed (e : exn).               (* {'success': False, 'error': str(e)} *)

(** The route [/play_saved_macro], on the objects [manager] and [player]. *)
Definition play_saved_macro (req : play_saved_request) (a : Routes.app)
    (player : Player.system) : play_response * Player.system :=
  let name := Routes.get (req_name req) "" in
  let speed := Routes.get (req_speed req) 1%Q in
  let repeat := Routes.get (req_repeat req) 1%Z in
  match Manager.load_macro (Routes.manager a) name (Routes.disk a) with
  | Raise e => (PlayFailed e, player)
  | Ok None => (NotFound, player)
  | Ok (Some macro_data) =>
      let '(success, player') :=
        Player.play_macro (Manager.events macro_data) speed repeat player in
      (Played success, player')
  end.

(** The route [/delete_macro]; the answer is [{'success': success}]. *)
Definition delete_macro (name : option string) (a : Routes.app) : bool * Routes.app :=
  let '(success, disk') :=
    Manager.delete_macro (Routes.manager a) (Routes.get name "") (Routes.disk a) in
  (success,
   {| Routes.recorder := Routes.recorder a; Routes.manager := Routes.manager a;
      Routes.disk := disk' |}).

End Server.

(** * Vocabulary of the statements *)

(** The numeric reading of [e['timestamp']], when there is one. *)
Definition timestamp_of (e : event) : option Q :=
  match e !! "timestamp" with
  | Some v => match to_num v with Ok q => Some q | Raise _ => None end
  | None => None
  end.

(** [e['type'] == 'mouse_move'] *)
Definition is_move (e : event) : bool :=
  bool_decide (e !! "type" = Some (VStr "mouse_move")).

(** An event as the recorder builds them: it has a type and a numeric
    offset. *)
Definition well_formed (e : event) : Prop :=
  is_Some (e !! "type") ∧ is_Some (timestamp_of e).

(** The offset [_get_timestamp] computes from the [n]-th clock reading. *)
Definition offset_at (time_time : nat -> Q) (self : Recorder.MacroRecorder)
    (n : nat) : Q :=
  match Recorder.start_time_truthy self with
  | Some st => (time_time n - st)%Q
  | None => 0%Q
  end.

(** The buffer gained exactly one event, a move at the given position. *)
Definition stored_move (x y : value) (self self' : Recorder.MacroRecorder) : Prop :=
  ∃ e, self' = Recorder.append self e ∧ is_move e = true ∧
       e !! "x" = Some x ∧ e !! "y" = Some y ∧ is_Some (timestamp_of e).

(** Two moves stored one right after the other are more than [gap] apart. *)
Fixpoint spaced (gap : Q) (l : list event) : Prop :=
  match l with
  | e1 :: ((e2 :: _) as l') =>
      (is_move e1 = true → is_move e2 = true →
       ∃ t1 t2, timestamp_of e1 = Some t1 ∧ timestamp_of e2 = Some t2 ∧
                (gap < t2 - t1)%Q) ∧
      spaced gap l'
  | _ => True
  end.

(** The condition under which the code stores a move: the buffer is empty,
    or its last event is not a move, or more than 0.1 s separate the
    offset read now from the offset of that last move. *)
Definition move_due (time_time : nat -> Q) (self : Recorder.MacroRecorder)
    (n : nat) : Prop :=
  Recorder.events self = [] ∨
  ∃ prev, last (Recorder.events self) = Some prev ∧
    (is_move prev = false ∨
     ∃ t, timestamp_of prev = Some t ∧
          (1 # 10 < offset_at time_time self n - t)%Q).

(** The same condition in the words of the specification: at least 0.1 s. *)
Definition move_due_at_least (time_time : nat -> Q)
    (self : Recorder.MacroRecorder) (n : nat) : Prop :=
  Recorder.events self = [] ∨
  ∃ prev, last (Recorder.events self) = Some prev ∧
    (is_move prev = false ∨
     ∃ t, timestamp_of prev = Some t ∧
          (1 # 10 <= offset_at time_time self n - t)%Q).

(** A capture session: [start_recording], then the notifications. *)
Definition session (time_time : nat -> Q) (self : Recorder.MacroRecorder)
    (ns : list Recorder.notification) : Recorder.M Recorder.MacroRecorder :=
  Recorder.seq (Recorder.start_recording time_time self)
    (fun r => Recorder.deliver_all time_time (snd r) ns).

(** The clock never goes back. *)
Definition monotone (time_time : nat -> Q) : Prop :=
  ∀ n, (time_time n <= time_time (S n))%Q.

(** One pass over the events, in the words of the specification: before
    each event a sleep of [(offset - previous) / speed] seconds, left out
    when that is not positive, then the dispatch of the event. *)
Fixpoint pass_actions (speed previous : Q) (events : list event)
    : list Player.action :=
  match events with
  | [] => []
  | e :: rest =>
      match timestamp_of e with
      | Some t =>
          let w := ((t - previous) / speed)%Q in
          (if Qlt_le_dec 0 w then [Player.Sleep w] else []) ++
          Player.Execute e :: pass_actions speed t rest
      | None => []
      end
  end.

(** [repeat] passes, each starting from offset 0. *)
Definition replay_actions (speed : Q) (repeat : nat) (events : list event)
    : list Player.action :=
  concat (replicate repeat (pass_actions speed 0 events)).

(** The event carries a numeric offset. *)
Definition timed (e : event) : Prop := is_Some (timestamp_of e).

(** A worker that has written the flags for the last time and has no event
    left to dispatch. *)
Definition retired (w : Player.worker) : bool :=
  match w with
  | Player.Finite _ _ _ Player.FDone => true
  | Player.Loop _ _ _ (Player.LFinally'' _) => true
  | Player.Loop _ _ _ (Player.LDone _) => true
  | _ => false
  end.

(** No hotkey callback runs in the schedule. *)
Definition hotkey_free (sched : list Player.choice) : bool :=
  forallb (λ c, negb (Player.is_hotkey c)) sched.

(** [e] is the press of a pointer button. *)
Definition is_click (e : event) : bool :=
  bool_decide (e !! "type" = Some (VStr "mouse_click")) &&
  match e !! "pressed" with Some p => truthy p | None => false end.

(** [e] is the press of a key. *)
Definition is_key_press (e : event) : bool :=
  bool_decide (e !! "type" = Some (VStr "key_press")).

(** An event with the fields the summary of the autosave reads. *)
Definition summarizable (e : event) : Prop :=
  well_formed e ∧
  (e !! "type" = Some (VStr "mouse_click") → is_Some (e !! "pressed")).

(** [last.offset - first.offset], 0 when there is at most one event. *)
Definition span (events : list event) : Q :=
  match events with
  | first :: _ :: _ =>
      match last events ≫= timestamp_of, timestamp_of first with
      | Some b, Some a => (b - a)%Q
      | _, _ => 0%Q
      end
  | _ => 0%Q
  end.

(** The description the autosave gives to a recording. *)
Definition summary (events : list event) : string :=
  "Auto-saved macro: " +:+ pretty (length (List.filter is_click events)) +:+
  " clicks, " +:+ pretty (length (List.filter is_key_press events)) +:+
  " key presses, " +:+ Manager.format_1f (span events) +:+ "s duration".

(** No dot occurs in [s]. *)
Fixpoint dotless (s : string) : bool :=
  match s with
  | EmptyString => true
  | String c s' => negb (Ascii.eqb c ".") && dotless s'
  end.

(** The worker of [_play_events], left alone, gets from one control point
    to another, and these are its actions on the way. *)
Definition reaches (events : list event) (speed : Q)
    (st : Player.fstate) (self : Player.MacroPlayer) (out : list Player.action)
    (st' : Player.fstate) (self' : Player.MacroPlayer) : Prop :=
  ∃ fuel, Player.run_finite events speed fuel st self = (st', self', out).

(** What holds of every state reached without the hotkey: the workers
    other than [self.play_thread] are retired, so are all of them when the
    control thread is idle and no replay is active, a pending [join] waits
    for [self.play_thread] with the flag cleared, and the trace shows no
    dispatch by a worker that existed when [stop_playback] returned. *)
Record inv (s : Player.system) : Prop := {
  inv_others : ∀ tid w, Player.threads s !! tid = Some w →
    Player.play_thread (Player.self s) ≠ Some tid → retired w = true;
  inv_idle : Player.control_thread s = Player.Idle →
    Player.playing (Player.self s) = false →
    ∀ tid w, Player.threads s !! tid = Some w → retired w = true;
  inv_join : ∀ t, Player.control_thread s = Player.Joining t →
    t = Player.play_thread (Player.self s) ∧
    Player.playing (Player.self s) = false;
  inv_late : Player.late_dispatch (Player.audit_trace (Player.trace s)) = false;
  inv_stopped : ∀ tid,
    tid ∈ Player.stopped (Player.audit_trace (Player.trace s)) →
    ∃ w, Player.threads s !! tid = Some w ∧ retired w = true;
  inv_started : ∀ tid,
    tid ∈ Player.started (Player.audit_trace (Player.trace s)) ↔
    tid < length (Player.threads s)
}.

(** The value of ['type'] in the event a notification is stored as. *)
Definition kind_of (nt : Recorder.notification) : string :=
  match nt with
  | Recorder.OnClick _ _ _ _ => "mouse_click"
  | Recorder.OnMove _ _ => "mouse_move"
  | Recorder.OnScroll _ _ _ _ => "mouse_scroll"
  | Recorder.OnKeyPress _ => "key_press"
  | Recorder.OnKeyRelease _ => "key_release"
  end.

(** The notification is a pointer move, the only kind that is throttled. *)
Definition is_move_notification (nt : Recorder.notification) : bool :=
  match nt with Recorder.OnMove _ _ => true | _ => false end.

(** The offsets never decrease from one stored event to the next. *)
Fixpoint ordered (l : list event) : Prop :=
  match l with
  | e1 :: ((e2 :: _) as l') =>
      (∃ t1 t2, timestamp_of e1 = Some t1 ∧ timestamp_of e2 = Some t2 ∧
                (t1 <= t2)%Q) ∧
      ordered l'
  | _ => True
  end.

(** No stored offset exceeds [q]. *)
Definition bounded_by (q : Q) (l : list event) : Prop :=
  Forall (λ e, ∃ t, timestamp_of e = Some t ∧ (t <= q)%Q) l.

(** The ['type'] fields of a list of events. *)
Definition tags (l : list event) : list (option value) :=
  map (λ e : event, e !! "type") l.

(** The ['type'] fields under which notifications are stored. *)
Definition kinds (ns : list Recorder.notification) : list (option value) :=
  map (λ nt, Some (VStr (kind_of nt))) ns.

(** The tag is not that of a pointer move. *)
Definition not_a_move (tag : option value) : Prop :=
  tag ≠ Some (VStr "mouse_move").

(** One iteration of the loop replay, in the words of the specification: a
    pass over the events, then the delay between iterations when it is
    positive. *)
Definition iteration_actions (speed delay : Q) (events : list event)
    : list Player.action :=
  pass_actions speed 0 events ++
  (if Qlt_le_dec 0 delay then [Player.Sleep delay] else []).

(** The loop worker, left alone, gets from one control point to another. *)
Definition loop_reaches (events : list event) (speed delay : Q)
    (st : Player.lstate) (self : Player.MacroPlayer) (ls : list Player.listener)
    (out : list Player.action)
    (st' : Player.lstate) (self' : Player.MacroPlayer) (ls' : list Player.listener)
    : Prop :=
  ∃ fuel, Replay.run_loop events speed delay fuel st self ls = (st', self', ls', out).

(** The loop worker has left its [while] loop. *)
Definition leaving (st : Player.lstate) : bool :=
  match st with
  | Player.LExcept _ _ | Player.LFinally _ | Player.LFinally' _
  | Player.LFinally'' _ | Player.LDone _ => true
  | _ => false
  end.

(** Every event the worker still has to replay in this pass carries a
    numeric offset. *)
Definition pending_timed (st : Player.lstate) : Prop :=
  match st with
  | Player.LFor _ rest _ => Forall timed rest
  | Player.LFor' _ e rest _ => timed e ∧ Forall timed rest
  | Player.LSleep _ _ rest _ _ => Forall timed rest
  | Player.LExec _ _ rest _ => Forall timed rest
  | _ => True
  end.

(** The number of dispatches among the actions. *)
Definition dispatches (out : list Player.action) : nat :=
  length (List.filter (λ a, match a with Player.Execute _ => true | _ => false end) out).

(** An upper bound on the steps [_play_events] has left at a control
    point, for a list of [n] events. *)
Definition steps_left (n : nat) (st : Player.fstate) : nat :=
  let per_pass := 3 * n + 2 in
  match st with
  | Player.FOuter todo => todo * per_pass + 2
  | Player.FInner todo rest _ => 3 * length rest + 1 + (todo * per_pass + 2)
  | Player.FSleep todo _ rest _ _ => 3 * length rest + 3 + (todo * per_pass + 2)
  | Player.FExec todo _ rest _ => 3 * length rest + 2 + (todo * per_pass + 2)
  | Player.FExcept _ => 2
  | Player.FFinally => 1
  | Player.FDone => 0
  end.

(** How many times the scheduler lets thread [tid] step. *)
Definition runs_of (tid : nat) (sched : list Player.choice) : nat :=
  length (List.filter
            (λ c, match c with Player.Run t => Nat.eqb t tid | _ => false end)
            sched).

(** The steps [_play_events_loop] has left at a control point once both
    flags are cleared. *)
Definition loop_steps_left (st : Player.lstate) : nat :=
  match st with
  | Player.LWhile _ | Player.LWhile' _ | Player.LExcept _ _ => 4
  | Player.LFor _ _ _ | Player.LFor' _ _ _ _ => 6
  | Player.LSleep _ _ _ _ _ => 8
  | Player.LExec _ _ _ _ => 7
  | Player.LAfter _ | Player.LAfter' _ | Player.LDelay _ => 5
  | Player.LFinally _ => 3
  | Player.LFinally' _ => 2
  | Player.LFinally'' _ => 1
  | Player.LDone _ => 0
  end.

(** The steps a worker has left once both flags are cleared. *)
Definition worker_steps_left (w : Player.worker) : nat :=
  match w with
  | Player.Finite events _ _ st => steps_left (length events) st
  | Player.Loop _ _ _ st => loop_steps_left st
  end.

(** The thread [self.play_thread] refers to, if any, has finished. *)
Definition no_live_worker (s : Player.system) : Prop :=
  match Player.play_thread (Player.self s) with
  | None => True
  | Some t => ∃ w, Player.threads s !! t = Some w ∧ Player.finished w = true
  end.

(** The calls a notification stands for: what the user did. *)
Definition replays_as (nt : Recorder.notification) : list Player.device_call :=
  match nt with
  | Recorder.OnClick x y button pressed =>
      [Player.SetPosition x y;
       if pressed then Player.MousePress (Player.after_last_dot button)
       else Player.MouseRelease (Player.after_last_dot button)]
  | Recorder.OnMove x y => [Player.SetPosition x y]
  | Recorder.OnScroll x y dx dy => [Player.SetPosition x y; Player.MouseScroll dx dy]
  | Recorder.OnKeyPress (Recorder.KeyCode (Some c)) =>
      [Player.KeyboardPress (Player.Literal c)]
  | Recorder.OnKeyPress (Recorder.Key name) =>
      [Player.KeyboardPress (Player.Special name)]
  | Recorder.OnKeyRelease (Recorder.KeyCode (Some c)) =>
      [Player.KeyboardRelease (Player.Literal c)]
  | Recorder.OnKeyRelease (Recorder.Key name) =>
      [Player.KeyboardRelease (Player.Special name)]
  | Recorder.OnKeyPress (Recorder.KeyCode None)
  | Recorder.OnKeyRelease (Recorder.KeyCode None) => []
  end.

(** A key the player can resolve: one character, or a member of
    [keyboard.Key] whose name has no dot. *)
Definition resolvable_key (keyboard_Key : string → bool) (k : Recorder.key) : Prop :=
  match k with
  | Recorder.KeyCode (Some c) => String.length c = 1%nat
  | Recorder.KeyCode None => True
  | Recorder.Key name => dotless name = true ∧ keyboard_Key name = true
  end.

(** A notification whose button or key the controllers of the player know. *)
Definition replayable (mouse_Button keyboard_Key : string → bool)
    (nt : Recorder.notification) : Prop :=
  match nt with
  | Recorder.OnClick _ _ button _ => mouse_Button (Player.after_last_dot button) = true
  | Recorder.OnKeyPress k | Recorder.OnKeyRelease k => resolvable_key keyboard_Key k
  | _ => True
  end.

(** What one file adds to the list of summaries. *)
Definition listed (self : Manager.MacroManager) (pc : string * Manager.content)
    : option Catalog.summary :=
  if Catalog.in_glob self pc.1 then Catalog.summarize pc.2 else None.

(** What [/play_saved_macro] does when the stored sequence holds [events]:
    the answer and the player of [play_macro] on them. *)
Definition plays (events : list event) (req : Server.play_saved_request)
    (player : Player.system) : Server.play_response * Player.system :=
  (Server.Played (negb (Player.playing (Player.self player))),
   (Player.play_macro events (Routes.get (Server.req_speed req) 1%Q)
      (Routes.get (Server.req_repeat req) 1%Z) player).2).

(** * Sample inputs *)

(** A clock that advances by one second at each reading. *)
Definition tick (n : nat) : Q := inject_Z (Z.of_nat (S n)).

(** A click of the left button at offset [t]. *)
Definition click_at (t : Q) (pressed : bool) : event :=
  {[ "type" := VStr "mouse_click"; "timestamp" := VFloat t;
     "x" := VInt 10; "y" := VInt 10;
     "button" := VStr "Button.left"; "pressed" := VBool pressed ]}.

(** The offsets 0, 1, 2 of the example of the specification. *)
Definition three_clicks : list event :=
  [click_at 0 true; click_at 1 false; click_at 2 true].

(** A loop replay of one click due after 100 s is cancelled by the hotkey
    while its worker has still to sleep; a finite replay is started and
    stopped by [stop_playback]; then the first worker wakes up. *)
Definition hotkey_race : list Player.choice :=
  [ Player.CallLoop [click_at 100 true] 1 1 true;
    Player.Run 0; Player.Run 0; Player.Run 0; Player.Run 0;
    Player.Hotkey 0;
    Player.CallPlay [click_at 1 true] 1 1;
    Player.CallStop;
    Player.Run 1; Player.Run 1;
    Player.ReturnStop;
    Player.Run 0; Player.Run 0 ].

(** A loop replay stopped by [stop_playback], without the hotkey, up to
    the end of the [join]. *)
Definition play_then_stop : list Player.choice :=
  [ Player.CallLoop [click_at 100 true] 1 1 true;
    Player.Run 0; Player.Run 0; Player.Run 0; Player.Run 0;
    Player.CallStop;
    Player.Run 0; Player.Run 0; Player.Run 0; Player.Run 0; Player.Run 0;
    Player.Run 0; Player.Run 0; Player.Run 0 ].

(** After the return of [stop_playback], a finite replay that runs to its
    end. *)
Definition play_again : list Player.choice :=
  [ Player.CallPlay [click_at 0 true] 1 1 ] ++ replicate 6 (Player.Run 1).

(** A reading of [datetime.now()]. *)
Definition sample_now : Manager.datetime :=
  {| Manager.year := 2025; Manager.month := 7; Manager.day := 2;
     Manager.hour := 14; Manager.minute := 30; Manager.second := 45;
     Manager.microsecond := 0 |}.

(** A disk without files, on which every file can be written. *)
Definition empty_disk : Manager.filesystem :=
  {| Manager.files := ∅; Manager.refused := ∅ |}.

(** A disk on which the file of the sample autosave cannot be written. *)
Definition full_disk : Manager.filesystem :=
  {| Manager.files := ∅;
     Manager.refused := {[ "macros/macro_20250702_143045.json" ]} |}.

(** The press and release of the example of the specification. *)
Definition press_release : list event :=
  [click_at 0 true; click_at (2 # 10) false].

(** Some members of [keyboard.Key]. *)
Definition sample_keys (name : string) : bool :=
  bool_decide (name ∈ ["esc"; "enter"; "shift"; "ctrl"; "alt"; "space"; "tab"]).

(** Some members of [mouse.Button]. *)
Definition sample_buttons (name : string) : bool :=
  bool_decide (name ∈ ["left"; "right"; "middle"]).

(** The press of a key as the recorder stores it. *)
Definition key_press_of (symbol : value) : event :=
  {[ "type" := VStr "key_press"; "timestamp" := VFloat 0; "key" := symbol ]}.

(** The application as it starts, on a given disk. *)
Definition fresh_app (disk : Manager.filesystem) : Routes.app :=
  {| Routes.recorder := Recorder.init; Routes.manager := Manager.init;
     Routes.disk := disk |}.

(** A save request with a name and an empty event list. *)
Definition empty_save : Routes.save_request :=
  {| Routes.req_name := Some (VStr "nothing");
     Routes.req_description := None;
     Routes.req_events := Some [] |}.

(** An application that is recording and has captured the two clicks. *)
Definition recording_app (disk : Manager.filesystem) : Routes.app :=
  {| Routes.recorder :=
       {| Recorder.events := press_release; Recorder.recording := true;
          Recorder.start_time := Some 1%Q;
          Recorder.mouse_listener := Some true;
          Recorder.keyboard_listener := Some true |};
     Routes.manager := Manager.init;
     Routes.disk := disk |}.

(** A click, two moves, a key and a scroll. *)
Definition sample_notifications : list Recorder.notification :=
  [ Recorder.OnClick (VInt 1) (VInt 1) "Button.left" true;
    Recorder.OnMove (VInt 2) (VInt 2);
    Recorder.OnMove (VInt 3) (VInt 3);
    Recorder.OnKeyPress (Recorder.KeyCode (Some "a"));
    Recorder.OnScroll (VInt 3) (VInt 3) (VInt 0) (VInt (-1)) ].

(** An event without offset. *)
Definition untimed_click : event :=
  {[ "type" := VStr "mouse_click"; "x" := VInt 10; "y" := VInt 10;
     "button" := VStr "Button.left"; "pressed" := VBool true ]}.

(** A loop replay with both flags cleared while its worker sleeps. *)
Definition cancelled_player : Player.MacroPlayer :=
  {| Player.playing := false; Player.loop_playing := false;
     Player.play_thread := Some 0; Player.stop_listener := Some 0 |}.

(** A finite replay of two passes disturbed by a stop and a new replay. *)
Definition disturbed_replay : list Player.choice :=
  [ Player.CallPlay three_clicks 1 2;
    Player.Run 0; Player.Run 0; Player.Run 0;
    Player.CallStop; Player.Run 0; Player.Run 0 ].

(** A recorder that is capturing, started at time 1, with nothing stored. *)
Definition capturing : Recorder.MacroRecorder :=
  {| Recorder.events := []; Recorder.recording := true;
     Recorder.start_time := Some 1%Q;
     Recorder.mouse_listener := Some true;
     Recorder.keyboard_listener := Some true |}.

(** A click with a button the controller does not know. *)
Definition odd_click : event :=
  {[ "type" := VStr "mouse_click"; "timestamp" := VFloat 0;
     "x" := VInt 10; "y" := VInt 20;
     "button" := VStr "Button.x9"; "pressed" := VBool true ]}.

(** A store with one readable sequence and one file that is not JSON. *)
Definition mixed_disk : Manager.filesystem :=
  {| Manager.files :=
       {[ "macros/good.json" :=
            Manager.Json {| Manager.name := "good"; Manager.description := "";
                            Manager.created := "2025-07-02T14:30:45";
                            Manager.events := press_release |};
          "macros/bad.json" := Manager.Unreadable ]};
     Manager.refused := ∅ |}.

(** The same second as [sample_now], half a second later. *)
Definition sample_later : Manager.datetime :=
  {| Manager.year := 2025; Manager.month := 7; Manager.day := 2;
     Manager.hour := 14; Manager.minute := 30; Manager.second := 45;
     Manager.microsecond := 250 |}.

(** A save request whose name has blanks around it. *)
Definition padded_save : Routes.save_request :=
  {| Routes.req_name := Some (VStr " demo ");
     Routes.req_description := None;
     Routes.req_events := Some press_release |}.

(** A request to replay a stored sequence twice at double speed. *)
Definition replay_request (name : string) : Server.play_saved_request :=
  {| Server.req_name := Some name; Server.req_speed := Some 2%Q;
     Server.req_repeat := Some 2%Z |}.

(** * Capture: the throttle of pointer moves *)

Section Throttle.

Import Recorder.
Variable time_time : nat -> Q.

Lemma gt_spec (a b : Q) : gt a b = true ↔ (b < a)%Q.
Proof.
  unfold gt. rewrite negb_true_iff.
  split.
  - intros H. apply Qnot_le_lt. intros Hle.
    apply Qle_bool_iff in Hle. congruence.
  - intros H. destruct (Qle_bool a b) eqn:E; [|done].
    apply Qle_bool_iff in E. exfalso. eapply Qlt_not_le; eauto.
Qed.

Lemma get_timestamp_spec (self : MacroRecorder) (n : nat) :
  ∃ v n', _get_timestamp time_time self n = Ok (v, n') ∧
          to_num v = Ok (offset_at time_time self n) ∧
          (n' = n ∨ n' = S n) ∧
          (n' = n → start_time_truthy self = None).
Proof.
  unfold _get_timestamp, offset_at.
  destruct (start_time_truthy self) as [st|]; cbn.
  - eexists _, _. split; [reflexivity|]. cbn. split; [done|]. split; [by right|lia].
  - eexists _, _. split; [reflexivity|]. cbn. split; [done|]. split; [by left|done].
Qed.

(** Two successive readings of the offset, under a monotone clock. *)
Lemma offset_mono (self : MacroRecorder) (n : nat) :
  monotone time_time → (offset_at time_time self n <= offset_at time_time self (S n))%Q.
Proof.
  intros Hm. unfold offset_at. destruct (start_time_truthy self).
  - specialize (Hm n). lra.
  - lra.
Qed.

Lemma last_well_formed (l : list event) (e : event) :
  Forall well_formed l → last l = Some e → well_formed e.
Proof.
  intros Hall Hl. rewrite Forall_forall in Hall. apply Hall.
  apply last_Some in Hl as [l' ->]. set_solver.
Qed.

Lemma timestamp_of_getitem (e : event) (t : Q) :
  timestamp_of e = Some t →
  ∃ v, getitem e "timestamp" = Ok v ∧ to_num v = Ok t.
Proof.
  unfold timestamp_of, getitem. destruct (e !! "timestamp") as [v|]; [|done].
  destruct (to_num v) eqn:E; [|done]. intros [= ->]. eauto.
Qed.

Lemma move_condition_spec (self : MacroRecorder) (n : nat) :
  Forall well_formed (events self) →
  ∃ c n', move_condition time_time self n = Ok (c, n') ∧
          (n' = n ∨ n' = S n) ∧
          (c = true ↔ move_due time_time self n).
Proof.
  intros Hwf. unfold move_condition, move_due.
  destruct (last (events self)) as [prev|] eqn:Hlast.
  - destruct (last_well_formed _ _ Hwf Hlast) as [[ty Hty] [t Ht]].
    destruct (timestamp_of_getitem _ _ Ht) as (pv & Hpv & Hnum).
    unfold seq at 1, lift at 1, getitem at 1. rewrite Hty.
    assert (Hne : events self ≠ []) by (intros E; rewrite E in Hlast; done).
    case_bool_decide as Hm.
    + destruct (get_timestamp_spec self n) as (v & n' & Hg & Hv & Hn & _).
      unfold seq at 1. rewrite Hg.
      unfold seq at 1, lift at 1. rewrite Hpv.
      unfold seq, lift, sub, Py.bind. rewrite Hv, Hnum. cbn.
      eexists _, _. split; [reflexivity|]. split; [done|].
      rewrite gt_spec. split.
      * intros Hlt. right. exists prev. split; [done|]. right. eauto.
      * intros [?|(p & [= <-] & [Hnm|(t' & Ht' & Hlt)])]; [done| |].
        -- unfold is_move in Hnm. rewrite Hty, Hm in Hnm.
           by rewrite bool_decide_eq_false in Hnm.
        -- congruence.
    + eexists _, _. split; [reflexivity|]. split; [by left|].
      split; [|done]. intros _. right. exists prev. split; [done|]. left.
      unfold is_move. rewrite Hty. apply bool_decide_eq_false. congruence.
  - eexists _, _. split; [reflexivity|]. split; [by left|].
    split; [|done]. intros _. left. by apply last_None.
Qed.
Lemma append_neq (self : MacroRecorder) (e : event) : append self e ≠ self.
Proof.
  intros H. apply (f_equal events) in H. cbn in H.
  apply (f_equal length) in H. rewrite length_app in H. cbn in H. lia.
Qed.

(** What [_on_mouse_move] does, step by step. *)
Lemma on_mouse_move_run (self : MacroRecorder) (x y : value) (n : nat) :
  recording self = true →
  Forall well_formed (events self) →
  ∃ (c : bool) (n1 : nat),
    (n1 = n ∨ n1 = S n) ∧ (c = true ↔ move_due time_time self n) ∧
    if c then
      ∃ v n',
        _on_mouse_move time_time self x y n =
          Ok (append self {[ "type" := VStr "mouse_move"; "timestamp" := v;
                             "x" := x; "y" := y ]}, n') ∧
        to_num v = Ok (offset_at time_time self n1)
    else _on_mouse_move time_time self x y n = Ok (self, n1).
Proof.
  intros Hrec Hwf.
  destruct (move_condition_spec self n Hwf) as (c & n1 & Hc & Hn1 & Hdue).
  exists c, n1. split; [done|]. split; [done|].
  destruct c.
  - destruct (get_timestamp_spec self n1) as (v & n' & Hg & Hv & _).
    exists v, n'. split; [|done].
    unfold _on_mouse_move. rewrite Hrec. unfold seq at 1. rewrite Hc.
    unfold seq. rewrite Hg. reflexivity.
  - unfold _on_mouse_move. rewrite Hrec. unfold seq at 1. rewrite Hc. reflexivity.
Qed.

Lemma move_event_facts (v x y : value) (t : Q) :
  to_num v = Ok t →
  let e : event := {[ "type" := VStr "mouse_move"; "timestamp" := v;
                      "x" := x; "y" := y ]} in
  is_move e = true ∧ e !! "x" = Some x ∧ e !! "y" = Some y ∧
  timestamp_of e = Some t ∧ well_formed e.
Proof.
  intros Hv e. subst e.
  assert (Ht : timestamp_of ({[ "type" := VStr "mouse_move"; "timestamp" := v;
                      "x" := x; "y" := y ]} : event) = Some t).
  { unfold timestamp_of. rewrite lookup_insert_ne by done.
    rewrite lookup_insert_eq. by rewrite Hv. }
  split; [|split; [|split; [|split]]].
  - unfold is_move. rewrite lookup_insert_eq. by apply bool_decide_eq_true.
  - by simplify_map_eq.
  - by simplify_map_eq.
  - done.
  - split; [|by rewrite Ht]. rewrite lookup_insert_eq. eauto.
Qed.

(** The throttle, as the code has it. *)
Lemma on_mouse_move_spec (self : MacroRecorder) (x y : value) (n : nat) :
  recording self = true →
  Forall well_formed (events self) →
  ∃ self' n', _on_mouse_move time_time self x y n = Ok (self', n') ∧
    (stored_move x y self self' ↔ move_due time_time self n) ∧
    (¬ move_due time_time self n → self' = self).
Proof.
  intros Hrec Hwf.
  destruct (on_mouse_move_run self x y n Hrec Hwf) as (c & n1 & _ & Hdue & Hrun).
  destruct c.
  - destruct Hrun as (v & n' & Hrun & Hv).
    eexists _, _. split; [exact Hrun|].
    destruct (move_event_facts v x y _ Hv) as (Hm & Hx & Hy & Ht & _).
    split; [split|].
    + intros _. by apply Hdue.
    + intros _. eexists. split; [reflexivity|]. rewrite Ht. eauto.
    + intros Hnd. exfalso. apply Hnd. by apply Hdue.
  - eexists _, _. split; [exact Hrun|]. split; [split|done].
    + intros (e & He & _). symmetry in He. by apply append_neq in He.
    + intros Hd. apply Hdue in Hd. done.
Qed.
Hypothesis clock_monotone : monotone time_time.

Lemma spaced_snoc (gap : Q) (l : list event) (e : event) :
  spaced gap l →
  (∀ prev, last l = Some prev → is_move prev = true → is_move e = true →
     ∃ t1 t2, timestamp_of prev = Some t1 ∧ timestamp_of e = Some t2 ∧
              (gap < t2 - t1)%Q) →
  spaced gap (l ++ [e]).
Proof.
  induction l as [|e1 [|e2 l'] IH]; intros Hs Hlast.
  - exact I.
  - cbn. split; [|exact I]. intros. by apply Hlast.
  - destruct Hs as [H12 Hs]. split; [exact H12|].
    apply IH; [exact Hs|]. intros prev Hp. by apply Hlast.
Qed.

(** The buffer stays well formed and spaced when an event that is not a
    move is appended. *)
Lemma append_other (self : MacroRecorder) (e : event) :
  is_move e = false → well_formed e →
  Forall well_formed (events self) → spaced (1 # 10) (events self) →
  Forall well_formed (events (append self e)) ∧
  spaced (1 # 10) (events (append self e)).
Proof.
  intros Hm Hwe Hwf Hs. cbn. split.
  - apply Forall_app. split; [done|]. by constructor.
  - apply spaced_snoc; [done|]. intros ? _ _ ?. congruence.
Qed.

Ltac run_timestamp self n :=
  let v := fresh "v" in
  let n' := fresh "n'" in
  let Hg := fresh "Hg" in
  let Hv := fresh "Hv" in
  destruct (get_timestamp_spec self n) as (v & n' & Hg & Hv & _);
  unfold seq; rewrite Hg; eexists _, _; split; [reflexivity|];
  apply append_other; [ | | assumption | assumption ];
  [ unfold is_move; rewrite lookup_insert_eq; by apply bool_decide_eq_false
  | split; [ rewrite lookup_insert_eq; eauto
           | unfold timestamp_of; rewrite lookup_insert_ne by done;
             rewrite lookup_insert_eq, Hv; eauto ] ].

Lemma deliver_preserves (self : MacroRecorder) (nt : notification) (n : nat) :
  Forall well_formed (events self) → spaced (1 # 10) (events self) →
  ∃ self' n', deliver time_time self nt n = Ok (self', n') ∧
    Forall well_formed (events self') ∧ spaced (1 # 10) (events self').
Proof.
  intros Hwf Hs.
  destruct (recording self) eqn:Hrec.
  2:{ exists self, n.
      destruct nt; cbn;
        unfold _on_mouse_click, _on_mouse_move, _on_mouse_scroll,
               _on_key_press, _on_key_release; rewrite Hrec; done. }
  destruct nt as [x y b p|x y|x y dx dy|k|k]; cbn.
  - unfold _on_mouse_click. rewrite Hrec. run_timestamp self n.
  - destruct (on_mouse_move_run self x y n Hrec Hwf)
      as (c & n1 & Hn1 & Hdue & Hrun).
    destruct c.
    + destruct Hrun as (v & n' & Hrun & Hv).
      eexists _, _. split; [exact Hrun|].
      destruct (move_event_facts v x y _ Hv) as (Hm & _ & _ & Ht & Hwe).
      cbn. split.
      * apply Forall_app. split; [done|]. by constructor.
      * apply spaced_snoc; [done|]. intros prev Hlast Hpm _.
        destruct (proj1 Hdue eq_refl) as [Hnil|(p' & Hp' & [Hnm|(t & Htp & Hlt)])].
        -- rewrite Hnil in Hlast. done.
        -- congruence.
        -- assert (p' = prev) as -> by congruence.
           exists t, (offset_at time_time self n1). split; [done|]. split; [done|].
           assert (offset_at time_time self n <= offset_at time_time self n1)%Q.
           { destruct Hn1 as [->| ->]; [lra|]. by apply offset_mono. }
           lra.
    + eexists _, _. split; [exact Hrun|]. done.
  - unfold _on_mouse_scroll. rewrite Hrec. run_timestamp self n.
  - unfold _on_key_press. rewrite Hrec. run_timestamp self n.
  - unfold _on_key_release. rewrite Hrec. run_timestamp self n.
Qed.

Lemma deliver_all_preserves (ns : list notification) :
  ∀ (self : MacroRecorder) (n : nat),
  Forall well_formed (events self) → spaced (1 # 10) (events self) →
  ∃ self' n', deliver_all time_time self ns n = Ok (self', n') ∧
    Forall well_formed (events self') ∧ spaced (1 # 10) (events self').
Proof.
  induction ns as [|nt ns IH]; intros self n Hwf Hs.
  - exists self, n. done.
  - destruct (deliver_preserves self nt n Hwf Hs) as (s1 & n1 & H1 & Hwf1 & Hs1).
    destruct (IH s1 n1 Hwf1 Hs1) as (s2 & n2 & H2 & Hwf2 & Hs2).
    exists s2, n2. split; [|done]. cbn. unfold seq. rewrite H1. exact H2.
Qed.
End Throttle.

Lemma deliver_recording (time_time : nat → Q) (self self' : Recorder.MacroRecorder)
    (nt : Recorder.notification) (n n' : nat) :
  Recorder.deliver time_time self nt n = Ok (self', n') →
  Recorder.recording self' = Recorder.recording self.
Proof.
  destruct nt; cbn;
    unfold Recorder._on_mouse_click, Recorder._on_mouse_move,
           Recorder._on_mouse_scroll, Recorder._on_key_press,
           Recorder._on_key_release;
    destruct (Recorder.recording self) eqn:Hrec;
    try (intros [= <- <-]; exact Hrec);
    unfold Recorder.seq;
    try destruct (Recorder.move_condition time_time self n) as [[[] ?]|];
    try destruct (Recorder._get_timestamp time_time self _) as [[? ?]|];
    cbn; intros [= <- <-]; done.
Qed.

Lemma deliver_all_recording (time_time : nat → Q) (ns : list Recorder.notification) :
  ∀ (self self' : Recorder.MacroRecorder) (n n' : nat),
  Recorder.deliver_all time_time self ns n = Ok (self', n') →
  Recorder.recording self' = Recorder.recording self.
Proof.
  induction ns as [|nt ns IH]; intros self self' n n'; cbn.
  - by intros [= <- <-].
  - unfold Recorder.seq.
    destruct (Recorder.deliver time_time self nt n) as [[s1 n1]|] eqn:E; [|done].
    intros H. apply IH in H. apply deliver_recording in E. congruence.
Qed.




(** * Replay: the finite-repeat worker *)

Section FiniteWorker.
Import Player.
Variable events : list event.
Variable speed : Q.

Lemma reaches_refl st self : reaches events speed st self [] st self.
Proof. by exists 0. Qed.

Lemma reaches_step st self st1 self1 out1 out st' self' :
  step_finite events speed st self = (st1, self1, out1) →
  reaches events speed st1 self1 out st' self' →
  reaches events speed st self (out1 ++ out) st' self'.
Proof.
  intros Hstep [fuel Hrun]. exists (S fuel). cbn. by rewrite Hstep, Hrun.
Qed.

Lemma reaches_trans st self out1 st1 self1 out2 st2 self2 :
  reaches events speed st self out1 st1 self1 →
  reaches events speed st1 self1 out2 st2 self2 →
  reaches events speed st self (out1 ++ out2) st2 self2.
Proof.
  intros [f1 H1] H2. revert st self out1 H1.
  induction f1 as [|f1 IH]; intros st self out1; cbn.
  - intros [= -> -> <-]. exact H2.
  - destruct (step_finite events speed st self) as [[sa selfa] outa] eqn:Hs.
    destruct (run_finite events speed f1 sa selfa) as [[sb selfb] outb] eqn:Hr.
    intros [= -> -> <-]. rewrite <- app_assoc.
    eapply reaches_step; [exact Hs|]. by apply IH.
Qed.

Lemma wait_time_timed (e : event) (t last : Q) :
  timestamp_of e = Some t → ¬ (speed == 0)%Q →
  wait_time e last speed = Ok (t, ((t - last) / speed)%Q).
Proof.
  intros Ht Hsp. unfold wait_time, timestamp_of in *.
  unfold getitem. destruct (e !! "timestamp") as [v|]; [|done].
  cbn. destruct (to_num v) as [q|] eqn:E; [|done]. injection Ht as ->.
  cbn. unfold truediv.
  destruct (Qeq_bool speed 0) eqn:Hz; [|done].
  apply Qeq_bool_iff in Hz. done.
Qed.

Lemma wait_time_zero (e : event) (t last : Q) :
  timestamp_of e = Some t → (speed == 0)%Q →
  wait_time e last speed = Raise ZeroDivisionError.
Proof.
  intros Ht Hsp. unfold wait_time, timestamp_of in *.
  unfold getitem. destruct (e !! "timestamp") as [v|]; [|done].
  cbn. destruct (to_num v) as [q|] eqn:E; [|done]. injection Ht as ->.
  cbn. unfold truediv. apply Qeq_bool_iff in Hsp. by rewrite Hsp.
Qed.

Lemma gt_zero_dec (w : Q) :
  (if gt w 0 then [Sleep w] else []) = (if Qlt_le_dec 0 w then [Sleep w] else []).
Proof.
  destruct (Qlt_le_dec 0 w) as [H|H].
  - apply gt_spec in H. by rewrite H.
  - destruct (gt w 0) eqn:E; [|done]. apply gt_spec in E. lra.
Qed.

(** One uninterrupted pass. *)
Lemma pass_runs (self : MacroPlayer) (todo : nat) :
  playing self = true → ¬ (speed == 0)%Q →
  ∀ (rest : list event) (last : Q), Forall timed rest →
  reaches events speed (FInner todo rest last) self (pass_actions speed last rest)
          (FOuter todo) self.
Proof.
  intros Hp Hsp rest. induction rest as [|e rest IH]; intros last Hwf.
  - eapply (reaches_step _ _ _ _ [] []); [reflexivity|apply reaches_refl].
  - apply Forall_cons in Hwf as [[t Ht] Hwf]. cbn [pass_actions]. rewrite Ht.
    cbn zeta. rewrite <- gt_zero_dec.
    pose proof (wait_time_timed e t last Ht Hsp) as Hw.
    destruct (gt ((t - last) / speed) 0) eqn:Hg.
    + eapply (reaches_step _ _ _ _ []).
      { cbn. rewrite Hp. cbn. rewrite Hw, Hg. reflexivity. }
      eapply (reaches_step _ _ _ _ [Sleep _]); [reflexivity|].
      eapply (reaches_step _ _ _ _ [Execute e]); [reflexivity|].
      by apply IH.
    + eapply (reaches_step _ _ _ _ []).
      { cbn. rewrite Hp. cbn. rewrite Hw, Hg. reflexivity. }
      eapply (reaches_step _ _ _ _ [Execute e]); [reflexivity|].
      by apply IH.
Qed.

(** The uninterrupted worker. *)
Lemma replay_runs (self : MacroPlayer) :
  playing self = true → ¬ (speed == 0)%Q → Forall timed events →
  ∀ todo : nat,
  reaches events speed (FOuter todo) self (replay_actions speed todo events)
          FDone (set_playing false self).
Proof.
  intros Hp Hsp Hwf todo. induction todo as [|todo IH].
  - eapply (reaches_step _ _ _ _ []); [reflexivity|].
    eapply (reaches_step _ _ _ _ []); [reflexivity|apply reaches_refl].
  - unfold replay_actions. cbn [replicate concat].
    eapply (reaches_step _ _ _ _ []).
    { cbn. rewrite Hp. reflexivity. }
    eapply reaches_trans; [by apply pass_runs|exact IH].
Qed.

(** A worker that finds the flag cleared at the head of an iteration
    dispatches nothing more. *)
Lemma cancelled_inner (self : MacroPlayer) (todo : nat) (rest : list event) (last : Q) :
  playing self = false →
  reaches events speed (FInner todo rest last) self [] FDone (set_playing false self).
Proof.
  intros Hp.
  assert (Hout : reaches events speed (FOuter todo) self [] FDone (set_playing false self)).
  { eapply (reaches_step _ _ FFinally self [] []).
    { destruct todo; cbn; [done|]. by rewrite Hp. }
    eapply (reaches_step _ _ _ _ [] []); [reflexivity|apply reaches_refl]. }
  eapply (reaches_step _ _ (FOuter todo) self [] []); [|exact Hout].
  destruct rest; cbn; [done|]. by rewrite Hp.
Qed.

Lemma cancelled_outer (self : MacroPlayer) (todo : nat) :
  playing self = false →
  reaches events speed (FOuter todo) self [] FDone (set_playing false self).
Proof.
  intros Hp.
  eapply (reaches_step _ _ FFinally self [] []).
  { destruct todo; cbn; [done|]. by rewrite Hp. }
  eapply (reaches_step _ _ _ _ [] []); [reflexivity|apply reaches_refl].
Qed.

(** With speed 0 the first wait cannot be computed. *)
Lemma zero_speed_runs (self : MacroPlayer) (todo : nat) (e : event) (rest : list event) :
  playing self = true → (speed == 0)%Q → events = e :: rest → timed e →
  reaches events speed (FOuter (S todo)) self [Print ZeroDivisionError]
          FDone (set_playing false self).
Proof.
  intros Hp Hsp Hev [t Ht].
  eapply (reaches_step _ _ _ _ []).
  { cbn. rewrite Hp. reflexivity. }
  assert (Hstep : ∀ l, l = e :: rest →
            step_finite events speed (FInner todo l 0) self =
              (FExcept ZeroDivisionError, self, [])).
  { intros l ->. cbn. rewrite Hp. cbn.
    by rewrite (wait_time_zero e t 0 Ht Hsp). }
  eapply (reaches_step _ _ _ _ []); [exact (Hstep events Hev)|].
  eapply (reaches_step _ _ _ _ [Print _]); [reflexivity|].
  eapply (reaches_step _ _ _ _ [] []); [reflexivity|apply reaches_refl].
Qed.
End FiniteWorker.

Lemma play_macro_idle (events : list event) (speed : Q) (repeat : Z)
    (s : Player.system) :
  Player.playing (Player.self s) = false →
  ∃ s', Player.play_macro events speed repeat s = (true, s') ∧
    Player.playing (Player.self s') = true ∧
    Player.play_thread (Player.self s') = Some (length (Player.threads s)) ∧
    Player.threads s' !! length (Player.threads s) =
      Some (Player.Finite events speed repeat (Player.FOuter (Z.to_nat repeat))) ∧
    (∀ tid, tid < length (Player.threads s) →
            Player.threads s' !! tid = Player.threads s !! tid).
Proof.
  intros Hidle. unfold Player.play_macro. rewrite Hidle.
  eexists. split; [reflexivity|]. cbn. split; [done|]. split; [done|]. split.
  - rewrite lookup_app_r by lia. by rewrite Nat.sub_diag.
  - intros tid Hlt. by rewrite lookup_app_l.
Qed.


Lemma three_clicks_timed : Forall timed three_clicks.
Proof. repeat constructor; by eexists. Qed.


(** The example of the specification: offsets 0, 1, 2 at speed 2 are
    replayed with two sleeps of half a second. *)
Example replay_three_clicks :
  replay_actions 2 1 three_clicks =
    [Player.Execute (click_at 0 true);
     Player.Sleep ((1 - 0) / 2); Player.Execute (click_at 1 false);
     Player.Sleep ((2 - 1) / 2); Player.Execute (click_at 2 true)].
Proof. reflexivity. Qed.

(** C7 (amended): [play_macro] neither rejects nor clamps a speed that is
    not positive: an idle player accepts the request and hands the speed
    unchanged to the worker.  With speed 0 the first wait cannot be
    computed: the division raises, the handler of the worker prints the
    error, nothing is dispatched and the session is marked inactive.  With
    a negative speed every wait is the quotient by that speed and the
    replay goes through all its passes. *)
Theorem speed_not_validated (events : list event) (speed : Q) (repeat : Z)
    (s : Player.system) :
  (speed <= 0)%Q →
  Forall timed events →
  Player.playing (Player.self s) = false →
  ∃ s',
    Player.play_macro events speed repeat s = (true, s') ∧
    Player.threads s' !! length (Player.threads s) =
      Some (Player.Finite events speed repeat (Player.FOuter (Z.to_nat repeat))) ∧
    ((speed == 0)%Q → events ≠ [] → (0 < repeat)%Z →
     reaches events speed (Player.FOuter (Z.to_nat repeat)) (Player.self s')
       [Player.Print ZeroDivisionError]
       Player.FDone (Player.set_playing false (Player.self s'))) ∧
    ((speed < 0)%Q →
     reaches events speed (Player.FOuter (Z.to_nat repeat)) (Player.self s')
       (replay_actions speed (Z.to_nat repeat) events)
       Player.FDone (Player.set_playing false (Player.self s'))).
Proof.
  intros Hsp Hwf Hidle.
  destruct (play_macro_idle events speed repeat s Hidle) as (s' & Hplay & Hp & _ & Hth & _).
  exists s'. split; [exact Hplay|]. split; [exact Hth|]. split.
  - intros Hz Hne Hrep.
    destruct events as [|e rest] eqn:Hev; [done|].
    apply Forall_cons in Hwf as [He _].
    destruct (Z.to_nat repeat) as [|todo] eqn:Hn; [lia|].
    by eapply zero_speed_runs.
  - intros Hneg. apply replay_runs; [exact Hp| |exact Hwf].
    intros Hz. rewrite Hz in Hneg. lra.
Qed.

Lemma speed_not_validated_witness :
  ∃ s',
    Player.play_macro three_clicks 0 1 Player.boot = (true, s') ∧
    Player.threads s' !! length (Player.threads Player.boot) =
      Some (Player.Finite three_clicks 0 1 (Player.FOuter (Z.to_nat 1))) ∧
    ((0 == 0)%Q → three_clicks ≠ [] → (0 < 1)%Z →
     reaches three_clicks 0 (Player.FOuter (Z.to_nat 1)) (Player.self s')
       [Player.Print ZeroDivisionError]
       Player.FDone (Player.set_playing false (Player.self s'))) ∧
    ((0 < 0)%Q →
     reaches three_clicks 0 (Player.FOuter (Z.to_nat 1)) (Player.self s')
       (replay_actions 0 (Z.to_nat 1) three_clicks)
       Player.FDone (Player.set_playing false (Player.self s'))).
Proof.
  apply (speed_not_validated three_clicks 0 1 Player.boot).
  - discriminate.
  - repeat constructor; by eexists.
  - reflexivity.
Defined.

(** C7 as stated fails: a request with speed 0 is accepted with the speed
    unchanged and the worker divides by it; with speed -1 the wait is the
    quotient by -1. *)
Lemma nonpositive_speed_reaches_division :
  ∃ s',
    Player.play_macro three_clicks 0 1 Player.boot = (true, s') ∧
    Player.threads s' !! 0%nat =
      Some (Player.Finite three_clicks 0 1 (Player.FOuter 1)) ∧
    Player.run_finite three_clicks 0 4 (Player.FOuter 1) (Player.self s') =
      (Player.FDone, Player.set_playing false (Player.self s'),
       [Player.Print ZeroDivisionError]) ∧
    Player.wait_time (click_at 1 false) 0 (-1) = Ok (1%Q, ((1 - 0) / -1)%Q).
Proof.
  eexists. split; [reflexivity|]. split; [reflexivity|]. split; reflexivity.
Qed.

(** * Replay: threads, [stop_playback] and the hotkey *)

Section Scheduler.
Import Player.

Lemma finished_retired (w : worker) : finished w = true → retired w = true.
Proof. destruct w as [? ? ? []|? ? ? []]; done. Qed.

Lemma step_finite_facts events speed st self st' self' out :
  step_finite events speed st self = (st', self', out) →
  play_thread self' = play_thread self ∧
  (playing self' = playing self ∨ (playing self' = false ∧ st' = FDone)).
Proof.
  destruct st as [[|todo]|todo [|e rest] last| | | | |]; cbn;
    repeat case_match; intros [= <- <- <-]; cbn; auto.
Qed.

Lemma step_loop_facts events speed delay st self ls st' self' ls' out :
  step_loop events speed delay st self ls = (st', self', ls', out) →
  play_thread self' = play_thread self ∧
  (playing self' = playing self ∨
   (playing self' = false ∧ ∃ c, st' = LFinally'' c)) ∧
  ((∃ c, st = LFinally'' c) →
   (∃ c, st' = LDone c) ∧ out = [] ∧ self' = self).
Proof.
  destruct st as [c|c|c [|e rest] last|c e rest last| | | | | | | | | |]; cbn;
    repeat case_match; intros [= <- <- <- <-]; cbn;
    (split; [done|]); (split; [eauto|]); intros [? [=]]; eauto.
Qed.

Lemma inv_boot : inv boot.
Proof.
  split; cbn; try done.
  - intros tid. rewrite elem_of_nil. done.
  - intros tid. rewrite elem_of_nil. lia.
Qed.

Lemma audit_trace_app (tr l : list obs) :
  audit_trace (tr ++ l) = fold_left audit_step l (audit_trace tr).
Proof. unfold audit_trace. by rewrite fold_left_app. Qed.

Lemma audit_did (tid : nat) (out : list action) :
  ∀ a : audit,
  started (fold_left audit_step (map (Did tid) out) a) = started a ∧
  stopped (fold_left audit_step (map (Did tid) out) a) = stopped a ∧
  (tid ∉ stopped a →
   late_dispatch (fold_left audit_step (map (Did tid) out) a) = late_dispatch a).
Proof.
  induction out as [|o out IH]; intros a; cbn [map fold_left].
  - done.
  - destruct (IH (audit_step a (Did tid o))) as (H1 & H2 & H3).
    rewrite H1, H2.
    destruct o; cbn in *; (split; [done|]); (split; [done|]); intros Hn;
      rewrite H3 by done; try done.
    cbn. rewrite bool_decide_eq_false_2 by done. by rewrite orb_false_r.
Qed.

(** A step of a worker keeps the invariant, whatever the worker, as long
    as it never sets [playing], clears it only when retiring, and does
    nothing once retired. *)
Lemma inv_worker_step (s s' : system) (tid : nat) (w w' : worker) (out : list action) :
  inv s →
  threads s !! tid = Some w →
  control_thread s' = control_thread s →
  play_thread (self s') = play_thread (self s) →
  threads s' = <[tid := w']> (threads s) →
  trace s' = trace s ++ map (Did tid) out →
  (playing (self s') = playing (self s) ∨
   (playing (self s') = false ∧ retired w' = true)) →
  (retired w = true →
   retired w' = true ∧ out = [] ∧ playing (self s') = playing (self s)) →
  inv s'.
Proof.
  intros [Ia Ib Ic Id Ie If] Hw Hctl Hpt Hth Htr Hplay Hret.
  assert (Hlt : tid < length (threads s)) by (by eapply lookup_lt_Some).
  assert (Hlook : ∀ t x, threads s' !! t = Some x →
            (t = tid ∧ x = w') ∨ (t ≠ tid ∧ threads s !! t = Some x)).
  { intros t x. rewrite Hth. destruct (decide (t = tid)) as [->|Hne].
    - rewrite list_lookup_insert_eq by done. intros [= <-]. by left.
    - rewrite list_lookup_insert_ne by done. by right. }
  assert (Hcur : retired w = false → play_thread (self s) = Some tid).
  { intros Hnr. destruct (decide (play_thread (self s) = Some tid)) as [|Hne]; [done|].
    rewrite (Ia _ _ Hw Hne) in Hnr. done. }
  destruct (audit_did tid out (audit_trace (trace s))) as (Hst & Hsp & Hlate).
  split.
  - intros t x Hx Hne. rewrite Hpt in Hne.
    destruct (Hlook _ _ Hx) as [[-> ->]|[_ Hx']]; [|by eapply Ia].
    apply Hret. by eapply Ia.
  - intros Hidle Hp t x Hx. rewrite Hctl in Hidle.
    destruct Hplay as [Hsame|[_ Hr]].
    + rewrite Hsame in Hp.
      destruct (Hlook _ _ Hx) as [[-> ->]|[_ Hx']]; [|by eapply Ib].
      apply Hret. by eapply Ib.
    + destruct (Hlook _ _ Hx) as [[-> ->]|[Hne Hx']]; [done|].
      destruct (retired w) eqn:Hrw.
      * destruct (Hret eq_refl) as (_ & _ & Hsame). rewrite Hsame in Hp.
        by eapply Ib.
      * eapply Ia; [exact Hx'|]. rewrite (Hcur eq_refl). congruence.
  - intros t Ht. rewrite Hctl in Ht. destruct (Ic _ Ht) as [-> Hp].
    split; [done|]. destruct Hplay as [->|[? _]]; done.
  - rewrite Htr, audit_trace_app.
    destruct (retired w) eqn:Hrw.
    + destruct (Hret eq_refl) as (_ & -> & _). done.
    + rewrite Hlate; [done|]. intros Hin.
      destruct (Ie _ Hin) as (x & Hx & Hrx). congruence.
  - intros t. rewrite Htr, audit_trace_app, Hsp. intros Hin.
    destruct (Ie _ Hin) as (x & Hx & Hrx).
    destruct (decide (t = tid)) as [->|Hne].
    + exists w'. rewrite Hth, list_lookup_insert_eq by done. split; [done|].
      apply Hret. congruence.
    + exists x. rewrite Hth, list_lookup_insert_ne by done. done.
  - intros t. rewrite Htr, audit_trace_app, Hst, Hth, length_insert. apply If.
Qed.

Lemma inv_run_worker (s : system) (tid : nat) (w : worker) :
  inv s → threads s !! tid = Some w → finished w = false →
  inv (step_worker tid w s).
Proof.
  intros Hinv Hw Hnf. destruct w as [ev sp rep st|ev sp dl st]; cbn.
  - destruct (step_finite ev sp st (self s)) as [[st' self'] out] eqn:Hs.
    destruct (step_finite_facts _ _ _ _ _ _ _ Hs) as (Hpt & Hplay).
    eapply (inv_worker_step s _ tid _ (Finite ev sp rep st') out Hinv Hw);
      cbn; try done.
    + destruct Hplay as [?|[? ->]]; [by left|by right].
    + intros Hr. destruct st; done.
  - destruct (step_loop ev sp dl st (self s) (listeners s))
      as [[[st' self'] ls'] out] eqn:Hs.
    destruct (step_loop_facts _ _ _ _ _ _ _ _ _ _ Hs) as (Hpt & Hplay & Hfin).
    eapply (inv_worker_step s _ tid _ (Loop ev sp dl st') out Hinv Hw);
      cbn; try done.
    + destruct Hplay as [?|[? [c ->]]]; [by left|by right].
    + intros Hr. destruct st; try done.
      destruct Hfin as ([c ->] & -> & ->); eauto.
Qed.

(** Starting a thread on an idle player. *)
Lemma inv_spawn (s s' : system) (w : worker) :
  inv s →
  control_thread s = Idle → playing (self s) = false →
  control_thread s' = Idle →
  playing (self s') = true →
  play_thread (self s') = Some (length (threads s)) →
  threads s' = threads s ++ [w] →
  trace s' = trace s ++ [Started (length (threads s))] →
  inv s'.
Proof.
  intros [Ia Ib Ic Id Ie If] Hidle Hp Hctl Hp' Hpt Hth Htr.
  split.
  - intros t x. rewrite Hth, Hpt. intros Hx Hne.
    apply lookup_app_Some in Hx as [Hx|[Hge Hx]]; [by eapply Ib|].
    apply list_lookup_singleton_Some in Hx as [Hz _].
    exfalso. apply Hne. f_equal. lia.
  - congruence.
  - congruence.
  - rewrite Htr, audit_trace_app. exact Id.
  - intros t. rewrite Htr, audit_trace_app. cbn. intros Hin.
    destruct (Ie _ Hin) as (x & Hx & Hr). exists x. split; [|done].
    rewrite Hth. by apply lookup_app_l_Some.
  - intros t. rewrite Htr, audit_trace_app, Hth, length_app. cbn.
    rewrite elem_of_cons, If. lia.
Qed.

Lemma inv_exec (c : choice) (s s' : system) :
  is_hotkey c = false → inv s → exec c s = Some s' → inv s'.
Proof.
  intros Hnh Hinv. destruct c as [tid|ev sp rep|ev sp dl hk| | |lid]; cbn; [| | | | |done].
  - destruct (threads s !! tid) as [w|] eqn:Hw; [|done].
    destruct (finished w) eqn:Hf; [done|]. intros [= <-].
    by apply inv_run_worker.
  - unfold is_idle. destruct (control_thread s) eqn:Hctl; [|done].
    intros [= <-]. unfold play_macro.
    destruct (playing (self s)) eqn:Hp; [done|]. cbn.
    by eapply (inv_spawn s).
  - unfold is_idle. destruct (control_thread s) eqn:Hctl; [|done].
    intros [= <-]. unfold play_macro_loop.
    destruct (playing (self s)) eqn:Hp; [done|].
    destruct (loop_playing (self s)) eqn:Hlp; [done|]. cbn.
    by eapply (inv_spawn s).
  - unfold is_idle. destruct (control_thread s) eqn:Hctl; [|done].
    intros [= <-]. destruct Hinv as [Ia Ib Ic Id Ie If].
    split; cbn; try done.
    intros t [= <-]. done.
  - unfold stop_playback_return.
    destruct (control_thread s) as [|t] eqn:Hctl; [done|].
    destruct Hinv as [Ia Ib Ic Id Ie If].
    destruct (Ic _ Hctl) as [-> Hp].
    match goal with |- context [if ?b then _ else _] => destruct b eqn:Hready end; [|done].
    intros [= <-].
    assert (Hall : ∀ tid w, threads s !! tid = Some w → retired w = true).
    { intros tid w Hw.
      destruct (decide (play_thread (self s) = Some tid)) as [Heq|Hne]; [|by eapply Ia].
      rewrite Heq, Hw in Hready. by apply finished_retired. }
    split; cbn [self threads listeners control_thread trace]; try done.
    + by rewrite audit_trace_app.
    + intros t. rewrite audit_trace_app. cbn. rewrite If.
      intros Hlt. apply lookup_lt_is_Some_2 in Hlt as [w Hw]. eauto.
    + intros t. rewrite audit_trace_app. cbn. apply If.
Qed.

Lemma inv_run (sched : list choice) :
  ∀ s s', forallb (λ c, negb (is_hotkey c)) sched = true →
  inv s → run sched s = Some s' → inv s'.
Proof.
  induction sched as [|c sched IH]; intros s s'; cbn.
  - by intros _ ? [= <-].
  - rewrite andb_true_iff, negb_true_iff. intros [Hc Hrest] Hinv.
    destruct (exec c s) as [s1|] eqn:He; [|done].
    apply IH; [done|]. by eapply inv_exec.
Qed.

Lemma finished_stays (c : choice) (s s' : system) (t : nat) (w : worker) :
  threads s !! t = Some w → finished w = true →
  exec c s = Some s' → threads s' !! t = Some w.
Proof.
  intros Hw Hf. destruct c as [tid|ev sp rep|ev sp dl hk| | |lid]; cbn.
  - destruct (threads s !! tid) as [w'|] eqn:Hw'; [|done].
    destruct (finished w') eqn:Hf'; [done|]. intros [= <-].
    assert (tid ≠ t) by (intros ->; congruence).
    destruct w' as [ev sp rep st|ev sp dl st]; cbn.
    + destruct (step_finite ev sp st (self s)) as [[st' self'] out]. cbn.
      by rewrite list_lookup_insert_ne.
    + destruct (step_loop ev sp dl st (self s) (listeners s)) as [[[st' self'] ls'] out].
      cbn. by rewrite list_lookup_insert_ne.
  - destruct (is_idle s); [|done]. intros [= <-]. unfold play_macro.
    destruct (playing (self s)); [done|]. cbn. by apply lookup_app_l_Some.
  - destruct (is_idle s); [|done]. intros [= <-]. unfold play_macro_loop.
    destruct (playing (self s) || loop_playing (self s)); [done|]. cbn.
    by apply lookup_app_l_Some.
  - destruct (is_idle s); [|done]. by intros [= <-].
  - unfold stop_playback_return. destruct (control_thread s); [done|].
    case_match; [|done]. by intros [= <-].
  - destruct (listeners s !! lid) as [l|]; [|done].
    destruct (running l); [|done]. by intros [= <-].
Qed.

Lemma finished_forever (sched : list choice) :
  ∀ (s s' : system) (t : nat) (w : worker),
  threads s !! t = Some w → finished w = true →
  run sched s = Some s' → threads s' !! t = Some w.
Proof.
  induction sched as [|c sched IH]; intros s s' t w Hw Hf; cbn.
  - by intros [= <-].
  - destruct (exec c s) as [s1|] eqn:He; [|done].
    eapply IH; [|exact Hf]. by eapply finished_stays.
Qed.

Lemma joined_finished (s s1 : system) (t : nat) :
  control_thread s = Joining (Some t) →
  stop_playback_return s = Some s1 →
  ∃ w, threads s1 !! t = Some w ∧ finished w = true.
Proof.
  unfold stop_playback_return. intros ->.
  destruct (threads s !! t) as [w|] eqn:Hw; [|done].
  destruct (finished w) eqn:Hf; [|done]. intros [= <-]. eauto.
Qed.
End Scheduler.





(** * The store *)

Section Store.
Import Manager.

Lemma save_then_load (self : MacroManager) (now : datetime)
    (name description : string) (events : list event) (fs : filesystem) :
  filepath self name ∉ refused fs →
  ∃ fs',
    save_macro self now name events description fs =
      Ok (filepath self name, fs') ∧
    load_macro self name fs' =
      Ok (Some {| name := name; description := description;
                  created := isoformat now; events := events |}).
Proof.
  intros Hw. unfold save_macro, write_json.
  rewrite bool_decide_eq_false_2 by done. cbn.
  eexists. split; [reflexivity|].
  unfold load_macro. cbn. by rewrite lookup_insert_eq.
Qed.

Lemma save_refused (self : MacroManager) (now : datetime)
    (name description : string) (events : list event) (fs : filesystem) :
  filepath self name ∈ refused fs →
  save_macro self now name events description fs = Raise (OSError (filepath self name)).
Proof.
  intros Hw. unfold save_macro, write_json.
  by rewrite bool_decide_eq_true_2.
Qed.

Lemma count_mouse_clicks_spec (events : list event) :
  Forall summarizable events →
  count_mouse_clicks events = Ok (length (List.filter is_click events)).
Proof.
  induction events as [|e rest IH]; intros Hall; [done|].
  apply Forall_cons in Hall as [[[[ty Hty] _] Hpressed] Hrest].
  cbn [count_mouse_clicks List.filter]. rewrite (IH Hrest).
  unfold getitem, is_click. rewrite Hty. cbn [mbind result_bind Py.bind].
  destruct (decide (ty = VStr "mouse_click")) as [->|Hm].
  - destruct (Hpressed Hty) as [p Hp]. rewrite Hp.
    rewrite !bool_decide_eq_true_2 by done. cbn.
    by destruct (truthy p).
  - by rewrite !bool_decide_eq_false_2 by congruence.
Qed.

Lemma count_key_presses_spec (events : list event) :
  Forall summarizable events →
  count_key_presses events = Ok (length (List.filter is_key_press events)).
Proof.
  induction events as [|e rest IH]; intros Hall; [done|].
  apply Forall_cons in Hall as [[[[ty Hty] _] _] Hrest].
  cbn [count_key_presses List.filter]. rewrite (IH Hrest).
  unfold getitem, is_key_press. rewrite Hty. cbn [mbind result_bind Py.bind].
  destruct (decide (ty = VStr "key_press")) as [->|Hm].
  - by rewrite !bool_decide_eq_true_2.
  - by rewrite !bool_decide_eq_false_2 by congruence.
Qed.

Lemma sub_timestamps (a b : event) (ta tb : Q) :
  timestamp_of a = Some ta → timestamp_of b = Some tb →
  (x ← getitem a "timestamp"; y ← getitem b "timestamp"; sub x y) = Ok (ta - tb)%Q.
Proof.
  unfold timestamp_of, getitem.
  destruct (a !! "timestamp") as [va|]; [|done].
  destruct (b !! "timestamp") as [vb|]; [|done].
  destruct (to_num va) as [qa|] eqn:Ea; [|done].
  destruct (to_num vb) as [qb|] eqn:Eb; [|done].
  intros [= ->] [= ->]. cbn. unfold sub. by rewrite Ea, Eb.
Qed.

Lemma duration_of_spec (events : list event) :
  Forall summarizable events → duration_of events = Ok (span events).
Proof.
  intros Hall. unfold duration_of, span.
  destruct events as [|first [|second rest]]; [done|done|].
  destruct (last (first :: second :: rest)) as [final|] eqn:Hlast; [|done].
  assert (Hf : summarizable final).
  { rewrite Forall_forall in Hall. apply Hall.
    apply last_Some in Hlast as [l' ->]. set_solver. }
  apply Forall_cons in Hall as [[[_ [tf Htf]] _] _].
  destruct Hf as [[_ [tl Htl]] _].
  cbn. rewrite Htl, Htf. by apply sub_timestamps.
Qed.
End Store.

(** C4: when the file of the sequence can be written, saving a name, a
    description and an event list (empty or not) and then loading by the
    same name returns a record whose events are the saved ones, field for
    field, with the name and the description that were given. *)
Theorem save_load_round_trip (self : Manager.MacroManager) (now : Manager.datetime)
    (name description : string) (events : list event) (fs : Manager.filesystem) :
  Manager.filepath self name ∉ Manager.refused fs →
  ∃ path fs' d,
    Manager.save_macro self now name events description fs = Ok (path, fs') ∧
    Manager.load_macro self name fs' = Ok (Some d) ∧
    Manager.events d = events ∧
    Manager.name d = name ∧ Manager.description d = description.
Proof.
  intros Hw.
  destruct (save_then_load self now name description events fs Hw) as (fs' & Hs & Hl).
  eexists _, fs', _. split; [exact Hs|]. split; [exact Hl|]. done.
Qed.

Lemma save_load_round_trip_witness :
  ∃ path fs' d,
    Manager.save_macro Manager.init sample_now "demo" press_release "two clicks" empty_disk
      = Ok (path, fs') ∧
    Manager.load_macro Manager.init "demo" fs' = Ok (Some d) ∧
    Manager.events d = press_release ∧
    Manager.name d = "demo" ∧ Manager.description d = "two clicks".
Proof.
  apply (save_load_round_trip Manager.init sample_now "demo" "two clicks"
           press_release empty_disk).
  cbn. apply not_elem_of_empty.
Defined.


Lemma press_release_summarizable : Forall summarizable press_release.
Proof.
  repeat constructor; try (by eexists); intros _; by eexists.
Qed.


(** The example of the specification. *)
Example auto_save_press_release :
  ∃ fs', Manager.auto_save_macro Manager.init sample_now sample_now press_release empty_disk
           = Ok ("macros/macro_20250702_143045.json", fs') ∧
         Manager.load_macro Manager.init "macro_20250702_143045" fs' =
           Ok (Some {| Manager.name := "macro_20250702_143045";
                       Manager.description :=
                         "Auto-saved macro: 1 clicks, 0 key presses, 0.2s duration";
                       Manager.created := "2025-07-02T14:30:45";
                       Manager.events := press_release |}).
Proof. eexists. split; [vm_compute; reflexivity|]. vm_compute. reflexivity. Qed.

(** * Key symbols *)


Lemma append_cons (x : ascii) (a b : string) :
  String x a +:+ b = String x (a +:+ b).
Proof. reflexivity. Qed.

Lemma append_assoc (a b c : string) : (a +:+ b) +:+ c = a +:+ (b +:+ c).
Proof.
  induction a as [|x a IH]; [done|]. by rewrite !append_cons, IH.
Qed.

Lemma append_empty_r (a : string) : a +:+ "" = a.
Proof. induction a as [|x a IH]; [done|]. by rewrite append_cons, IH. Qed.

Lemma after_last_dot_from_dotless (s : string) :
  ∀ acc, dotless s = true → Player.after_last_dot_from acc s = acc +:+ s.
Proof.
  induction s as [|c s IH]; intros acc; cbn.
  - intros _. by rewrite append_empty_r.
  - rewrite andb_true_iff, negb_true_iff. intros [Hc Hs].
    rewrite Hc, (IH _ Hs), append_assoc. done.
Qed.

Lemma after_last_dot_key (name : string) :
  dotless name = true → Player.after_last_dot ("Key." +:+ name) = name.
Proof.
  intros H. unfold Player.after_last_dot.
  change ("Key." +:+ name)
    with (String "K" (String "e" (String "y" (String "." name)))).
  cbn. by rewrite (after_last_dot_from_dotless _ "" H).
Qed.

Lemma length_append (a b : string) :
  String.length (a +:+ b) = String.length a + String.length b.
Proof.
  induction a as [|x a IH]; [done|]. rewrite append_cons. cbn. by rewrite IH.
Qed.



(** * The routes *)

(** C9 (amended): the route [/save_macro] does not look at the event
    list.  A request whose event list is empty or absent is refused only
    when its name is blank, with the answer that a name is required and
    nothing persisted; with any other name, when the file can be written,
    it succeeds: the answer carries the path, and the store then holds
    under that name a sequence with no event. *)
Theorem save_route_accepts_empty (now : Manager.datetime)
    (req : Routes.save_request) (a : Routes.app)
    (name description : string) :
  Routes.strip (Routes.get (Routes.req_name req) (VStr "")) = Ok name →
  Routes.strip (Routes.get (Routes.req_description req) (VStr "")) = Ok description →
  Routes.get (Routes.req_events req) [] = [] →
  (name = "" → Routes.save_macro now req a = (Routes.NameRequired, a)) ∧
  (name ≠ "" →
   Manager.filepath (Routes.manager a) name ∉ Manager.refused (Routes.disk a) →
   ∃ a',
     Routes.save_macro now req a =
       (Routes.Saved (Manager.filepath (Routes.manager a) name), a') ∧
     Manager.load_macro (Routes.manager a') name (Routes.disk a') =
       Ok (Some {| Manager.name := name; Manager.description := description;
                   Manager.created := Manager.isoformat now;
                   Manager.events := [] |})).
Proof.
  intros Hn Hd He. unfold Routes.save_macro. rewrite Hn, Hd, He.
  cbn [mbind result_bind Py.bind]. split.
  - intros ->. done.
  - intros Hne Hw.
    rewrite (proj2 (String.eqb_neq _ _) Hne).
    destruct (save_then_load (Routes.manager a) now name description [] _ Hw)
      as (fs' & Hs & Hl).
    rewrite Hs. cbn [mbind result_bind Py.bind].
    eexists. split; [reflexivity|]. exact Hl.
Qed.

Lemma save_route_accepts_empty_witness :
  ("nothing" = "" →
   Routes.save_macro sample_now empty_save (fresh_app empty_disk)
     = (Routes.NameRequired, fresh_app empty_disk)) ∧
  ("nothing" ≠ "" →
   Manager.filepath (Routes.manager (fresh_app empty_disk)) "nothing"
     ∉ Manager.refused (Routes.disk (fresh_app empty_disk)) →
   ∃ a',
     Routes.save_macro sample_now empty_save (fresh_app empty_disk) =
       (Routes.Saved (Manager.filepath (Routes.manager (fresh_app empty_disk)) "nothing"), a') ∧
     Manager.load_macro (Routes.manager a') "nothing" (Routes.disk a') =
       Ok (Some {| Manager.name := "nothing"; Manager.description := "";
                   Manager.created := Manager.isoformat sample_now;
                   Manager.events := [] |})).
Proof.
  apply (save_route_accepts_empty sample_now empty_save (fresh_app empty_disk)
           "nothing" ""); reflexivity.
Defined.

(** C9 as stated fails: a request with a name and an empty event list is
    answered with success and a sequence without events is persisted. *)
Lemma empty_save_succeeds :
  ∃ a',
    Routes.req_events empty_save = Some [] ∧
    Routes.save_macro sample_now empty_save (fresh_app empty_disk)
      = (Routes.Saved "macros/nothing.json", a') ∧
    Routes.is_success (Routes.Saved "macros/nothing.json") = true ∧
    Manager.load_macro Manager.init "nothing" (Routes.disk a') =
      Ok (Some {| Manager.name := "nothing"; Manager.description := "";
                  Manager.created := "2025-07-02T14:30:45";
                  Manager.events := [] |}).
Proof.
  eexists. split; [reflexivity|]. split; [vm_compute; reflexivity|].
  split; [reflexivity|]. vm_compute. reflexivity.
Qed.

(** C10: the answer of [/stop_recording] has [auto_saved] true exactly
    when the stop succeeded and the buffer is not empty, and carries the
    buffer when the stop succeeded; when the autosave raises, the exception
    is caught and printed, the store is unchanged, and the answer still has
    [auto_saved] true and the captured events. *)
Theorem stop_recording_reports_auto_saved (now now' : Manager.datetime)
    (a : Routes.app) :
  let '(response, printed, a') := Routes.stop_recording now now' a in
  let buffer := Recorder.events (Routes.recorder a) in
  let stopped := Recorder.recording (Routes.recorder a) in
  Routes.success response = stopped ∧
  Routes.auto_saved response = stopped && negb (bool_decide (buffer = [])) ∧
  Routes.events response = (if stopped then buffer else []) ∧
  (∀ e, stopped = true → buffer ≠ [] →
        Manager.auto_save_macro (Routes.manager a) now now' buffer (Routes.disk a)
          = Raise e →
        printed = [Routes.AutoSaveFailed e] ∧
        Routes.disk a' = Routes.disk a ∧
        Routes.auto_saved response = true ∧
        Routes.events response = buffer).
Proof.
  unfold Routes.stop_recording, Recorder.stop_recording.
  destruct (Recorder.recording (Routes.recorder a)) eqn:Hrec;
    cbn [negb andb Recorder.events]; [|by split_and!].
  destruct (Manager.auto_save_macro (Routes.manager a) now now'
              (Recorder.events (Routes.recorder a)) (Routes.disk a))
    as [[fp d]|e] eqn:Hsave;
    destruct (Recorder.events (Routes.recorder a)) as [|e0 rest] eqn:Hev;
    cbn; split_and!; try done.
  by intros e' _ _ [= <-].
Qed.

(** The autosave that cannot write its file still answers [auto_saved]. *)
Example stop_recording_on_full_disk :
  ∃ a',
    Routes.stop_recording sample_now sample_now (recording_app full_disk) =
      ({| Routes.success := true; Routes.events := press_release;
          Routes.auto_saved := true |},
       [Routes.AutoSaveFailed (OSError "macros/macro_20250702_143045.json")],
       a') ∧
    Routes.disk a' = full_disk.
Proof. eexists. split; vm_compute; reflexivity. Qed.

(** * Capture: the session *)

Section Capture.
Import Recorder.
Variable time_time : nat → Q.

Lemma offset_at_append (self : MacroRecorder) (e : event) (n : nat) :
  offset_at time_time (append self e) n = offset_at time_time self n.
Proof. reflexivity. Qed.

Ltac shape_pressed :=
  first [ intros H; discriminate H | intros _; by simplify_map_eq ].

(** What one notification does to a recorder that is capturing. *)
Lemma deliver_shape (self : MacroRecorder) (nt : notification) (n : nat) :
  recording self = true →
  Forall well_formed (events self) →
  ∃ self' n', deliver time_time self nt n = Ok (self', n') ∧ (n ≤ n')%nat ∧
    ((is_move_notification nt = true ∧ self' = self) ∨
     ∃ e n1, self' = append self e ∧
       e !! "type" = Some (VStr (kind_of nt)) ∧
       timestamp_of e = Some (offset_at time_time self n1) ∧
       (n ≤ n1)%nat ∧ (n1 ≤ n')%nat ∧
       (kind_of nt = "mouse_click" → is_Some (e !! "pressed"))).
Proof.
  intros Hrec Hwf.
  assert (Hts : ∀ m, ∃ v m', _get_timestamp time_time self m = Ok (v, m') ∧
                 to_num v = Ok (offset_at time_time self m) ∧ (m ≤ m')%nat).
  { intros m. destruct (get_timestamp_spec time_time self m) as (v & m' & H1 & H2 & H3 & _).
    exists v, m'. split; [done|]. split; [done|]. lia. }
  destruct nt as [x y b p|x y|x y dx dy|k|k]; cbn [deliver].
  - destruct (Hts n) as (v & n' & Hg & Hv & Hle).
    unfold _on_mouse_click. rewrite Hrec. unfold seq. rewrite Hg.
    eexists _, _. split; [reflexivity|]. split; [done|]. right.
    eexists _, n. split; [reflexivity|]. split; [by rewrite lookup_insert_eq|].
    split; [unfold timestamp_of; rewrite lookup_insert_ne by done;
            by rewrite lookup_insert_eq, Hv|].
    split; [lia|]. split; [lia|]. shape_pressed.
  - destruct (move_condition_spec time_time self n Hwf) as (c & n1 & Hc & Hn1 & _).
    unfold _on_mouse_move. rewrite Hrec. unfold seq at 1. rewrite Hc.
    destruct c.
    + destruct (Hts n1) as (v & n' & Hg & Hv & Hle).
      unfold seq. rewrite Hg.
      eexists _, _. split; [reflexivity|]. split; [lia|]. right.
      eexists _, n1. split; [reflexivity|]. split; [by rewrite lookup_insert_eq|].
      split; [unfold timestamp_of; rewrite lookup_insert_ne by done;
              by rewrite lookup_insert_eq, Hv|].
      split; [lia|]. split; [lia|]. shape_pressed.
    + eexists _, _. split; [reflexivity|]. split; [lia|]. by left.
  - destruct (Hts n) as (v & n' & Hg & Hv & Hle).
    unfold _on_mouse_scroll. rewrite Hrec. unfold seq. rewrite Hg.
    eexists _, _. split; [reflexivity|]. split; [done|]. right.
    eexists _, n. split; [reflexivity|]. split; [by rewrite lookup_insert_eq|].
    split; [unfold timestamp_of; rewrite lookup_insert_ne by done;
            by rewrite lookup_insert_eq, Hv|].
    split; [lia|]. split; [lia|]. shape_pressed.
  - destruct (Hts n) as (v & n' & Hg & Hv & Hle).
    unfold _on_key_press. rewrite Hrec. unfold seq. rewrite Hg.
    eexists _, _. split; [reflexivity|]. split; [done|]. right.
    eexists _, n. split; [reflexivity|]. split; [by rewrite lookup_insert_eq|].
    split; [unfold timestamp_of; rewrite lookup_insert_ne by done;
            by rewrite lookup_insert_eq, Hv|].
    split; [lia|]. split; [lia|]. shape_pressed.
  - destruct (Hts n) as (v & n' & Hg & Hv & Hle).
    unfold _on_key_release. rewrite Hrec. unfold seq. rewrite Hg.
    eexists _, _. split; [reflexivity|]. split; [done|]. right.
    eexists _, n. split; [reflexivity|]. split; [by rewrite lookup_insert_eq|].
    split; [unfold timestamp_of; rewrite lookup_insert_ne by done;
            by rewrite lookup_insert_eq, Hv|].
    split; [lia|]. split; [lia|]. shape_pressed.
Qed.

Lemma offset_le (self : MacroRecorder) (n m : nat) :
  monotone time_time → (n ≤ m)%nat →
  (offset_at time_time self n <= offset_at time_time self m)%Q.
Proof.
  intros Hm Hle. induction Hle as [|m Hle IH]; [lra|].
  pose proof (offset_mono time_time self m Hm). lra.
Qed.

Lemma ordered_snoc (l : list event) (e : event) (t : Q) :
  ordered l → timestamp_of e = Some t → bounded_by t l → ordered (l ++ [e]).
Proof.
  induction l as [|e1 [|e2 l'] IH]; intros Ho He Hb.
  - exact I.
  - cbn. split; [|exact I].
    apply Forall_cons in Hb as [(t1 & Ht1 & Hle) _]. eauto.
  - destruct Ho as [H12 Ho]. split; [exact H12|].
    apply IH; [exact Ho|exact He|]. by apply Forall_cons in Hb as [_ Hb].
Qed.

Lemma bounded_by_le (q q' : Q) (l : list event) :
  (q <= q')%Q → bounded_by q l → bounded_by q' l.
Proof.
  intros Hle Hb. eapply Forall_impl; [exact Hb|].
  intros e (t & Ht & Hq). exists t. split; [done|lra].
Qed.
End Capture.

Section CaptureSession.
Import Recorder.
Variable time_time : nat → Q.

Lemma deliver_all_stopped (ns : list notification) :
  ∀ (self : MacroRecorder) (n : nat),
  recording self = false → deliver_all time_time self ns n = Ok (self, n).
Proof.
  induction ns as [|nt ns IH]; intros self n Hrec; [done|].
  cbn [deliver_all]. unfold seq.
  assert (Hd : deliver time_time self nt n = Ok (self, n)).
  { destruct nt; cbn;
      unfold _on_mouse_click, _on_mouse_move, _on_mouse_scroll,
             _on_key_press, _on_key_release; by rewrite Hrec. }
  rewrite Hd. by apply IH.
Qed.

Lemma shape_well_formed (e : event) (k : string) (t : Q) :
  e !! "type" = Some (VStr k) → timestamp_of e = Some t → well_formed e.
Proof. intros H1 H2. split; [by rewrite H1|by rewrite H2]. Qed.

(** Everything but moves is stored, in the order of arrival. *)
Lemma deliver_all_kinds (ns : list notification) :
  ∀ (self : MacroRecorder) (n : nat),
  recording self = true → Forall well_formed (events self) →
  ∃ self' n' added,
    deliver_all time_time self ns n = Ok (self', n') ∧
    recording self' = true ∧
    events self' = events self ++ added ∧
    tags added `sublist_of` kinds ns ∧
    filter not_a_move (tags added) = filter not_a_move (kinds ns).
Proof.
  induction ns as [|nt ns IH]; intros self n Hrec Hwf.
  - exists self, n, []. rewrite app_nil_r. done.
  - destruct (deliver_shape time_time self nt n Hrec Hwf)
      as (s1 & n1 & Hd & _ & Hcase).
    cbn [deliver_all]. unfold seq. rewrite Hd.
    destruct Hcase as [[Hmv ->]|(e & m & -> & Hty & Hts & _)].
    + destruct (IH self n1 Hrec Hwf) as (s2 & n2 & added & Hrun & Hr2 & Hev & Hsub & Hfil).
      exists s2, n2, added. split; [done|]. split; [done|]. split; [done|].
      destruct nt; try done. cbn [kinds map kind_of].
      split; [by apply sublist_cons|].
      rewrite filter_cons_False; [exact Hfil|]. unfold not_a_move. by intros H.
    + destruct (IH (append self e) n1) as (s2 & n2 & added & Hrun & Hr2 & Hev & Hsub & Hfil).
      { exact Hrec. }
      { cbn. apply Forall_app. split; [done|]. constructor; [|done].
        by eapply shape_well_formed. }
      exists s2, n2, (e :: added). split; [done|]. split; [done|].
      split; [rewrite Hev; cbn; by rewrite <- app_assoc|].
      cbn [tags kinds map]. rewrite Hty. split; [by apply sublist_skip|].
      fold (tags added). fold (kinds ns).
      destruct (decide (not_a_move (Some (VStr (kind_of nt))))) as [Hnm|Hm].
      * rewrite !filter_cons_True by done. by rewrite Hfil.
      * rewrite !filter_cons_False by done. exact Hfil.
Qed.

Hypothesis clock_monotone : monotone time_time.

(** The offsets of the buffer never decrease. *)
Lemma deliver_all_ordered (ns : list notification) :
  ∀ (self : MacroRecorder) (n : nat),
  recording self = true → Forall well_formed (events self) →
  ordered (events self) → bounded_by (offset_at time_time self n) (events self) →
  ∃ self' n',
    deliver_all time_time self ns n = Ok (self', n') ∧ ordered (events self').
Proof.
  induction ns as [|nt ns IH]; intros self n Hrec Hwf Ho Hb.
  - exists self, n. done.
  - destruct (deliver_shape time_time self nt n Hrec Hwf)
      as (s1 & n1 & Hd & Hle & Hcase).
    cbn [deliver_all]. unfold seq. rewrite Hd.
    destruct Hcase as [[Hmv ->]|(e & m & -> & Hty & Hts & Hnm & Hmn & _)].
    + apply IH; try done.
      eapply bounded_by_le; [|exact Hb]. by apply offset_le.
    + apply IH.
      * exact Hrec.
      * cbn. apply Forall_app. split; [done|]. constructor; [|done].
        by eapply shape_well_formed.
      * cbn. eapply ordered_snoc; [exact Ho|exact Hts|].
        eapply bounded_by_le; [|exact Hb]. by apply offset_le.
      * change (offset_at time_time (append self e) n1)
          with (offset_at time_time self n1).
        cbn. apply Forall_app. split.
        -- eapply bounded_by_le; [|exact Hb]. apply offset_le; [done|lia].
        -- constructor; [|done]. exists (offset_at time_time self m).
           split; [done|]. by apply offset_le.
Qed.
End CaptureSession.


(** X1: [start_recording] on a recorder that is capturing answers False
    and changes nothing, not even the clock is read; on one that is not, it
    answers True, empties the buffer and takes the reading of the clock as
    start time, and a second call answers False.  [stop_recording] on a
    recorder that is not capturing answers False and changes nothing; on
    one that is, it answers True and keeps the buffer, and a second call
    answers False. *)
Theorem capture_lifecycle (time_time : nat → Q) (self : Recorder.MacroRecorder)
    (n : nat) :
  (Recorder.recording self = true →
     Recorder.start_recording time_time self n = Ok ((false, self), n)) ∧
  (Recorder.recording self = false →
     ∃ self',
       Recorder.start_recording time_time self n = Ok ((true, self'), S n) ∧
       Recorder.events self' = [] ∧
       Recorder.start_time self' = Some (time_time n) ∧
       Recorder.start_recording time_time self' (S n) = Ok ((false, self'), S n)) ∧
  (Recorder.recording self = false →
     Recorder.stop_recording self = (false, self)) ∧
  (Recorder.recording self = true →
     ∃ self',
       Recorder.stop_recording self = (true, self') ∧
       Recorder.events self' = Recorder.events self ∧
       Recorder.stop_recording self' = (false, self')).
Proof.
  unfold Recorder.start_recording, Recorder.stop_recording. split_and!.
  - by intros ->.
  - intros ->. eexists. split; [reflexivity|]. done.
  - by intros ->.
  - intros ->. eexists. split; [reflexivity|]. done.
Qed.


(** X2: after [stop_recording], whatever the listeners still deliver,
    the recorder does not change: nothing is appended and the clock is not
    read; the buffer is the one the stop found. *)
Theorem buffer_frozen_after_stop (time_time : nat → Q)
    (self : Recorder.MacroRecorder) (ns : list Recorder.notification) (n : nat) :
  let stopped := snd (Recorder.stop_recording self) in
  Recorder.deliver_all time_time stopped ns n = Ok (stopped, n) ∧
  Recorder.events stopped = Recorder.events self.
Proof.
  cbn zeta. split.
  - apply deliver_all_stopped. unfold Recorder.stop_recording.
    by destruct (Recorder.recording self) eqn:E.
  - unfold Recorder.stop_recording. by destruct (Recorder.recording self).
Qed.


(** X3: a capture session, started on a recorder that is not capturing,
    handles every notification without error, whatever key or button it
    carries.  The ['type'] fields of the stored events are those of the
    notifications in their order of arrival with some pointer moves left
    out: every click, scroll, key press and key release is stored. *)
Theorem capture_drops_only_moves (time_time : nat → Q)
    (self0 : Recorder.MacroRecorder) (ns : list Recorder.notification) (n : nat) :
  Recorder.recording self0 = false →
  ∃ self n',
    session time_time self0 ns n = Ok (self, n') ∧
    tags (Recorder.events self) `sublist_of` kinds ns ∧
    filter not_a_move (tags (Recorder.events self)) = filter not_a_move (kinds ns).
Proof.
  intros Hrec0.
  unfold session, Recorder.seq, Recorder.start_recording. rewrite Hrec0. cbn.
  set (s0 := {| Recorder.events := [] |}).
  destruct (deliver_all_kinds time_time ns s0 (S n)) as (self & n' & added & Hrun & _ & Hev & Hsub & Hfil);
    [done|constructor|].
  exists self, n'. split; [exact Hrun|]. rewrite Hev. done.
Qed.

Lemma capture_drops_only_moves_witness :
  ∃ self n',
    session tick Recorder.init sample_notifications 0 = Ok (self, n') ∧
    tags (Recorder.events self) `sublist_of` kinds sample_notifications ∧
    filter not_a_move (tags (Recorder.events self)) =
      filter not_a_move (kinds sample_notifications).
Proof.
  apply (capture_drops_only_moves tick Recorder.init sample_notifications 0).
  reflexivity.
Defined.




(** * Replay: the loop worker *)

Section LoopWorker.
Import Player.
Variable events : list event.
Variable speed delay : Q.

Lemma loop_reaches_refl st self ls :
  loop_reaches events speed delay st self ls [] st self ls.
Proof. by exists 0. Qed.

Lemma loop_reaches_step st self ls st1 self1 ls1 out1 out st' self' ls' :
  step_loop events speed delay st self ls = (st1, self1, ls1, out1) →
  loop_reaches events speed delay st1 self1 ls1 out st' self' ls' →
  loop_reaches events speed delay st self ls (out1 ++ out) st' self' ls'.
Proof.
  intros Hstep [fuel Hrun]. exists (S fuel). cbn. by rewrite Hstep, Hrun.
Qed.

Lemma loop_reaches_trans st self ls out1 st1 self1 ls1 out2 st2 self2 ls2 :
  loop_reaches events speed delay st self ls out1 st1 self1 ls1 →
  loop_reaches events speed delay st1 self1 ls1 out2 st2 self2 ls2 →
  loop_reaches events speed delay st self ls (out1 ++ out2) st2 self2 ls2.
Proof.
  intros [f1 H1] H2. revert st self ls out1 H1.
  induction f1 as [|f1 IH]; intros st self ls out1; cbn.
  - intros [= -> -> -> <-]. exact H2.
  - destruct (step_loop events speed delay st self ls) as [[[sa selfa] lsa] outa] eqn:Hs.
    destruct (Replay.run_loop events speed delay f1 sa selfa lsa)
      as [[[sb selfb] lsb] outb] eqn:Hr.
    intros [= -> -> -> <-]. rewrite <- app_assoc.
    eapply loop_reaches_step; [exact Hs|]. by apply IH.
Qed.

(** One uninterrupted pass of the loop worker. *)
Lemma loop_pass_runs (self : MacroPlayer) (ls : list listener) (c : nat) :
  playing self = true → loop_playing self = true → ¬ (speed == 0)%Q →
  ∀ (rest : list event) (last : Q), Forall timed rest →
  loop_reaches events speed delay (LFor c rest last) self ls
    (pass_actions speed last rest) (LAfter c) self ls.
Proof.
  intros Hp Hlp Hsp rest. induction rest as [|e rest IH]; intros last Hwf.
  - eapply (loop_reaches_step _ _ _ _ _ _ [] []); [reflexivity|apply loop_reaches_refl].
  - apply Forall_cons in Hwf as [[t Ht] Hwf]. cbn [pass_actions]. rewrite Ht.
    cbn zeta. rewrite <- (gt_zero_dec ((t - last) / speed)).
    pose proof (wait_time_timed speed e t last Ht Hsp) as Hw.
    eapply (loop_reaches_step _ _ _ _ _ _ []).
    { cbn. rewrite Hlp. reflexivity. }
    destruct (gt ((t - last) / speed) 0) eqn:Hg.
    + eapply (loop_reaches_step _ _ _ _ _ _ []).
      { cbn. rewrite Hp. cbn. rewrite Hw, Hg. reflexivity. }
      eapply (loop_reaches_step _ _ _ _ _ _ [Sleep _]); [reflexivity|].
      eapply (loop_reaches_step _ _ _ _ _ _ [Execute e]); [reflexivity|].
      by apply IH.
    + eapply (loop_reaches_step _ _ _ _ _ _ []).
      { cbn. rewrite Hp. cbn. rewrite Hw, Hg. reflexivity. }
      eapply (loop_reaches_step _ _ _ _ _ _ [Execute e]); [reflexivity|].
      by apply IH.
Qed.

(** One uninterrupted iteration. *)
Lemma loop_iteration_runs (self : MacroPlayer) (ls : list listener) (c : nat) :
  playing self = true → loop_playing self = true → ¬ (speed == 0)%Q →
  Forall timed events →
  loop_reaches events speed delay (LWhile c) self ls
    (iteration_actions speed delay events) (LWhile (S c)) self ls.
Proof.
  intros Hp Hlp Hsp Hwf. unfold iteration_actions.
  eapply (loop_reaches_step _ _ _ _ _ _ []).
  { cbn. rewrite Hlp. reflexivity. }
  eapply (loop_reaches_step _ _ _ _ _ _ []).
  { cbn. rewrite Hp. reflexivity. }
  eapply loop_reaches_trans; [by apply loop_pass_runs|].
  eapply (loop_reaches_step _ _ _ _ _ _ []).
  { cbn. rewrite Hlp. reflexivity. }
  destruct (Qlt_le_dec 0 delay) as [Hd|Hd].
  - eapply (loop_reaches_step _ _ _ _ _ _ []).
    { cbn. rewrite Hp. rewrite (proj2 (gt_spec delay 0) Hd). reflexivity. }
    eapply (loop_reaches_step _ _ _ _ _ _ [Sleep delay] []); [reflexivity|].
    apply loop_reaches_refl.
  - eapply (loop_reaches_step _ _ _ _ _ _ [] []); [|apply loop_reaches_refl].
    cbn. rewrite Hp. destruct (gt delay 0) eqn:Hg; [|done].
    apply gt_spec in Hg. lra.
Qed.

Lemma loop_iterations_run (self : MacroPlayer) (ls : list listener) :
  playing self = true → loop_playing self = true → ¬ (speed == 0)%Q →
  Forall timed events →
  ∀ (k c : nat),
  loop_reaches events speed delay (LWhile c) self ls
    (concat (replicate k (iteration_actions speed delay events)))
    (LWhile (k + c)) self ls.
Proof.
  intros Hp Hlp Hsp Hwf k. induction k as [|k IH]; intros c.
  - apply loop_reaches_refl.
  - cbn [replicate concat].
    eapply loop_reaches_trans; [by apply loop_iteration_runs|].
    replace (S k + c) with (k + S c) by lia. apply IH.
Qed.

(** While both flags stay set the worker stays in its loop. *)
Lemma step_loop_stays (self : MacroPlayer) (ls : list listener) (st : lstate) :
  playing self = true → loop_playing self = true → ¬ (speed == 0)%Q →
  Forall timed events →
  leaving st = false → pending_timed st →
  ∃ st' out, step_loop events speed delay st self ls = (st', self, ls, out) ∧
     leaving st' = false ∧ pending_timed st'.
Proof.
  intros Hp Hlp Hsp Hwf Hl Hpt.
  destruct st as [c|c|c [|e rest] last|c e rest last|c e rest t w|c e rest t|c|c|c| | | | |];
    try done; cbn in *; rewrite ?Hp, ?Hlp; cbn.
  all: try (eexists _, _; split; [reflexivity|]; split; done).
  - apply Forall_cons in Hpt as [He Hrest].
    eexists _, _. split; [reflexivity|]. done.
  - destruct Hpt as [[t Ht] Hrest].
    rewrite (wait_time_timed speed e t last Ht Hsp).
    destruct (gt ((t - last) / speed) 0);
      (eexists _, _; split; [reflexivity|]; done).
  - destruct (gt delay 0); (eexists _, _; split; [reflexivity|]; done).
Qed.

(** However long it runs with both flags set, the worker is still in its
    loop. *)
Lemma loop_runs_on (self : MacroPlayer) (ls : list listener) :
  playing self = true → loop_playing self = true → ¬ (speed == 0)%Q →
  Forall timed events →
  ∀ (fuel : nat) (st : lstate), leaving st = false → pending_timed st →
  ∃ st' out,
    Replay.run_loop events speed delay fuel st self ls = (st', self, ls, out) ∧
    leaving st' = false.
Proof.
  intros Hp Hlp Hsp Hwf fuel. induction fuel as [|fuel IH]; intros st Hl Hpt.
  - exists st, []. done.
  - destruct (step_loop_stays self ls st Hp Hlp Hsp Hwf Hl Hpt)
      as (st1 & out1 & Hs & Hl1 & Hpt1).
    destruct (IH st1 Hl1 Hpt1) as (st2 & out2 & Hr & Hl2).
    exists st2, (out1 ++ out2). cbn. rewrite Hs, Hr. done.
Qed.

(** With both flags cleared the worker is done within eight steps, after at
    most the one dispatch that was under way. *)
Lemma loop_cancelled (self : MacroPlayer) (ls : list listener) (st : lstate) :
  playing self = false → loop_playing self = false →
  leaving st = false →
  ∃ fuel c out,
    (fuel ≤ 8)%nat ∧
    Replay.run_loop events speed delay fuel st self ls =
      (LDone c, set_playing false (set_loop_playing false self),
       stop_current_listener self ls, out) ∧
    (dispatches out ≤ 1)%nat ∧
    (dispatches out = 1%nat →
     ∃ x, (∃ c e rest t w, st = LSleep c e rest t w ∧ x = e) ∨
          (∃ c e rest t, st = LExec c e rest t ∧ x = e)).
Proof.
  intros Hp Hlp Hl.
  destruct self as [p lp pt sl]. cbn in Hp, Hlp. subst p lp.
  destruct st as [c|c|c rest last|c e rest last|c e rest t w|c e rest t|c|c|c|c err|c|c|c|c];
    try done.
  all: [> exists 4 | exists 4 | exists 6 | exists 6 | exists 8 | exists 7
         | exists 5 | exists 5 | exists 5 ].
  all: eexists _, _; split; [lia|].
  all: try destruct rest as [|e' rest].
  all: split; [ reflexivity |].
  all: cbn; split; [lia|]; try (intros H; discriminate H).
  all: intros _; exists e; eauto 10.
Qed.
End LoopWorker.

(** * Replay: the workers to their end *)

Section FiniteWorkerMore.
Import Player.
Variable events : list event.
Variable speed : Q.

Lemma wait_time_untimed (e : event) (last : Q) :
  timestamp_of e = None →
  ∃ err, wait_time e last speed = Raise err ∧
         (err = KeyError "timestamp" ∨ err = TypeError).
Proof.
  unfold timestamp_of, wait_time, getitem.
  destruct (e !! "timestamp") as [v|]; cbn.
  - destruct (to_num v) as [q|err] eqn:E; [done|]. intros _.
    exists err. split; [done|]. right. destruct v; cbn in E; congruence.
  - intros _. eexists. split; [done|]. by left.
Qed.

(** A pass stops at the first event without a numeric offset. *)
Lemma pass_aborts (self : MacroPlayer) (todo : nat) (bad : event) (rest : list event) :
  playing self = true → ¬ (speed == 0)%Q → timestamp_of bad = None →
  ∀ (good : list event) (last : Q), Forall timed good →
  ∃ err, (err = KeyError "timestamp" ∨ err = TypeError) ∧
    reaches events speed (FInner todo (good ++ bad :: rest) last) self
      (pass_actions speed last good ++ [Print err])
      FDone (set_playing false self).
Proof.
  intros Hp Hsp Hbad good. induction good as [|e good IH]; intros last Hwf.
  - destruct (wait_time_untimed bad last Hbad) as (err & Hw & Herr).
    exists err. split; [done|]. cbn [app pass_actions].
    eapply (reaches_step _ _ _ _ _ _ []).
    { cbn. rewrite Hp. cbn. rewrite Hw. reflexivity. }
    eapply (reaches_step _ _ _ _ _ _ [Print err]); [reflexivity|].
    eapply (reaches_step _ _ _ _ _ _ [] []); [reflexivity|apply reaches_refl].
  - apply Forall_cons in Hwf as [[t Ht] Hwf].
    destruct (IH t Hwf) as (err & Herr & Hrun).
    exists err. split; [done|].
    cbn [pass_actions app]. rewrite Ht. cbn zeta.
    rewrite <- (gt_zero_dec ((t - last) / speed)).
    pose proof (wait_time_timed speed e t last Ht Hsp) as Hw.
    destruct (gt ((t - last) / speed) 0) eqn:Hg.
    + eapply (reaches_step _ _ _ _ _ _ []).
      { cbn. rewrite Hp. cbn. rewrite Hw, Hg. reflexivity. }
      eapply (reaches_step _ _ _ _ _ _ [Sleep _]); [reflexivity|].
      eapply (reaches_step _ _ _ _ _ _ [Execute e]); [reflexivity|].
      exact Hrun.
    + eapply (reaches_step _ _ _ _ _ _ []).
      { cbn. rewrite Hp. cbn. rewrite Hw, Hg. reflexivity. }
      eapply (reaches_step _ _ _ _ _ _ [Execute e]); [reflexivity|].
      exact Hrun.
Qed.

(** Every step brings the worker closer to its end. *)
Lemma step_finite_decreases (st : fstate) (self : MacroPlayer) :
  st ≠ FDone →
  (steps_left (length events) (step_finite events speed st self).1.1
   < steps_left (length events) st)%nat.
Proof.
  intros Hnd.
  destruct st as [[|todo]|todo [|e rest] last|todo e rest t w|todo e rest t| | |];
    try done; cbn; repeat case_match; cbn; lia.
Qed.
End FiniteWorkerMore.

Section SchedulerMore.
Import Player.

Lemma thread_kept (c : choice) (s s' : system) (t : nat) (w : worker) :
  threads s !! t = Some w → c ≠ Run t →
  exec c s = Some s' → threads s' !! t = Some w.
Proof.
  intros Hw Hc. destruct c as [tid|ev sp rep|ev sp dl hk| | |lid]; cbn.
  - destruct (threads s !! tid) as [w'|] eqn:Hw'; [|done].
    destruct (finished w') eqn:Hf'; [done|]. intros [= <-].
    assert (tid ≠ t) by congruence.
    destruct w' as [ev sp rep st|ev sp dl st]; cbn.
    + destruct (step_finite ev sp st (self s)) as [[st' self'] out]. cbn.
      by rewrite list_lookup_insert_ne.
    + destruct (step_loop ev sp dl st (self s) (listeners s)) as [[[st' self'] ls'] out].
      cbn. by rewrite list_lookup_insert_ne.
  - destruct (is_idle s); [|done]. intros [= <-]. unfold play_macro.
    destruct (playing (self s)); [done|]. cbn. by apply lookup_app_l_Some.
  - destruct (is_idle s); [|done]. intros [= <-]. unfold play_macro_loop.
    destruct (playing (self s) || loop_playing (self s)); [done|]. cbn.
    by apply lookup_app_l_Some.
  - destruct (is_idle s); [|done]. by intros [= <-].
  - unfold stop_playback_return. destruct (control_thread s); [done|].
    case_match; [|done]. by intros [= <-].
  - destruct (listeners s !! lid) as [l|]; [|done].
    destruct (running l); [|done]. by intros [= <-].
Qed.

Lemma finite_runs_bounded (sched : list choice) :
  ∀ (s s' : system) (tid : nat) (ev : list event) (sp : Q) (rep : Z) (st : fstate),
  threads s !! tid = Some (Finite ev sp rep st) →
  run sched s = Some s' →
  (runs_of tid sched ≤ steps_left (length ev) st)%nat.
Proof.
  induction sched as [|c sched IH]; intros s s' tid ev sp rep st Hw; cbn.
  - intros _. unfold runs_of. cbn. lia.
  - destruct (exec c s) as [s1|] eqn:He; [|done]. intros Hrun.
    assert (Hdec : c = Run tid ∨ c ≠ Run tid).
    { destruct c as [t| | | | |]; try (by right).
      destruct (decide (t = tid)) as [->|]; [by left|right; congruence]. }
    destruct Hdec as [->|Hne].
    + unfold runs_of. cbn. rewrite Nat.eqb_refl. cbn. fold (runs_of tid sched).
      cbn in He. rewrite Hw in He.
      destruct (finished (Finite ev sp rep st)) eqn:Hf; [done|].
      injection He as <-.
      pose proof (step_finite_decreases ev sp st (self s)) as Hdec.
      unfold step_worker in Hrun.
      destruct (step_finite ev sp st (self s)) as [[st' self'] out] eqn:Hs.
      cbn in Hdec.
      assert (Hlt : (tid < length (threads s))%nat) by (by eapply lookup_lt_Some).
      assert (st ≠ FDone) by (intros ->; done).
      specialize (Hdec ltac:(done)).
      eapply (IH _ _ tid ev sp rep st') in Hrun; [lia|].
      cbn. by rewrite list_lookup_insert_eq.
    + assert (Hsame : runs_of tid (c :: sched) = runs_of tid sched).
      { unfold runs_of. cbn. destruct c as [t| | | | |]; try done.
        destruct (Nat.eqb t tid) eqn:E; [|done].
        apply Nat.eqb_eq in E. congruence. }
      change (runs_of tid (c :: sched) ≤ steps_left (length ev) st)%nat.
      rewrite Hsame. eapply IH; [|exact Hrun]. by eapply thread_kept.
Qed.
End SchedulerMore.

Section Drain.
Import Player.

Lemma step_loop_decreases events speed delay st self ls :
  playing self = false → loop_playing self = false →
  (∀ c, st ≠ LDone c) →
  let '(st', self', _, _) := step_loop events speed delay st self ls in
  (loop_steps_left st' < loop_steps_left st)%nat ∧
  playing self' = false ∧ loop_playing self' = false.
Proof.
  intros Hp Hlp Hnd.
  destruct st as [c|c|c [|e rest] last|c e rest last|c e rest t w|c e rest t|c|c|c|c err|c|c|c|c];
    cbn; rewrite ?Hp, ?Hlp; cbn; try (split_and!; done || lia).
  by destruct (Hnd c).
Qed.

(** Scheduled on its own while both flags are cleared, a worker finishes
    within the steps it has left; nothing else changes hands. *)
Lemma drain (m : nat) :
  ∀ (s : system) (tid : nat) (w : worker),
  (worker_steps_left w ≤ m)%nat →
  threads s !! tid = Some w →
  playing (self s) = false → loop_playing (self s) = false →
  ∃ k s' w',
    (k ≤ m)%nat ∧
    run (replicate k (Run tid)) s = Some s' ∧
    threads s' !! tid = Some w' ∧ finished w' = true ∧
    control_thread s' = control_thread s ∧
    playing (self s') = false ∧ loop_playing (self s') = false.
Proof.
  induction m as [|m IH]; intros s tid w Hm Hw Hp Hlp.
  - exists 0, s, w. split; [lia|]. split; [done|]. split; [done|].
    split; [|done].
    destruct w as [ev sp rep st|ev sp dl st]; cbn in Hm.
    + destruct st; cbn in Hm; (done || lia).
    + destruct st; cbn in Hm; (done || lia).
  - destruct (finished w) eqn:Hf.
    { exists 0, s, w. split; [lia|]. done. }
    assert (Hlt : (tid < length (threads s))%nat) by (by eapply lookup_lt_Some).
    assert (Hex : exec (Run tid) s = Some (step_worker tid w s)).
    { cbn. by rewrite Hw, Hf. }
    assert (Hnext : ∃ w',
      threads (step_worker tid w s) !! tid = Some w' ∧
      (worker_steps_left w' ≤ m)%nat ∧
      control_thread (step_worker tid w s) = control_thread s ∧
      playing (self (step_worker tid w s)) = false ∧
      loop_playing (self (step_worker tid w s)) = false).
    { destruct w as [ev sp rep st|ev sp dl st]; cbn in Hm |- *.
      - pose proof (step_finite_decreases ev sp st (self s)) as Hdec.
        pose proof (step_finite_facts ev sp st (self s)) as Hfacts.
        destruct (step_finite ev sp st (self s)) as [[st' self'] out] eqn:Hs.
        cbn in Hdec. cbn. eexists. rewrite list_lookup_insert_eq by done.
        split; [done|]. cbn.
        assert (st ≠ FDone) by (intros ->; done).
        split; [specialize (Hdec ltac:(done)); lia|]. split; [done|].
        assert (Hlp' : loop_playing self' = loop_playing (self s) ∧ playing self' = false).
        { clear Hdec Hfacts. destruct st as [[|?]|? [|? ?] ?| | | | |]; cbn in Hs;
            repeat case_match; simplify_eq; cbn; done. }
        destruct Hlp' as [-> ->]. done.
      - pose proof (step_loop_decreases ev sp dl st (self s) (listeners s) Hp Hlp) as Hdec.
        destruct (step_loop ev sp dl st (self s) (listeners s))
          as [[[st' self'] ls'] out] eqn:Hs.
        cbn. eexists. rewrite list_lookup_insert_eq by done.
        split; [done|]. cbn.
        destruct Hdec as (Hd & Hp' & Hlp').
        { intros c ->. done. }
        split; [lia|]. done. }
    destruct Hnext as (w1 & Hw1 & Hm1 & Hc1 & Hp1 & Hlp1).
    destruct (IH _ tid w1 Hm1 Hw1 Hp1 Hlp1)
      as (k & s' & w' & Hk & Hrun & Hw' & Hf' & Hc' & Hp' & Hlp').
    exists (S k), s', w'. split; [lia|]. split.
    { cbn [replicate run]. by rewrite Hex. }
    split; [done|]. split; [done|]. split; [congruence|]. done.
Qed.
End Drain.


(** X5: on an idle player, [play_macro_loop] with a speed other than 0 on
    events that carry a numeric offset starts a worker that replays the
    list again and again as long as nobody clears the flags: after [k]
    iterations it has emitted [k] times the actions of one iteration (the
    pass, then the delay when it is positive) and is back at the head of
    its loop with the player as it was; and however long it runs, it does
    not leave the loop. *)
Theorem loop_replay_runs_on (events : list event) (speed delay : Q)
    (hotkeys_available : bool) (s : Player.system) (k fuel : nat) :
  ¬ (speed == 0)%Q →
  Forall timed events →
  Player.playing (Player.self s) = false →
  Player.loop_playing (Player.self s) = false →
  ∃ s',
    Player.play_macro_loop events speed delay hotkeys_available s = (true, s') ∧
    loop_reaches events speed delay
      (Player.LWhile 0) (Player.self s') (Player.listeners s')
      (concat (replicate k (iteration_actions speed delay events)))
      (Player.LWhile k) (Player.self s') (Player.listeners s') ∧
    ∃ st out,
      Replay.run_loop events speed delay fuel
        (Player.LWhile 0) (Player.self s') (Player.listeners s') =
        (st, Player.self s', Player.listeners s', out) ∧
      leaving st = false.
Proof.
  intros Hsp Hwf Hp Hlp. unfold Player.play_macro_loop. rewrite Hp, Hlp. cbn.
  eexists. split; [reflexivity|]. cbn. split.
  - replace k with (k + 0)%nat at 2 by lia. by apply loop_iterations_run.
  - by apply loop_runs_on.
Qed.

Lemma loop_replay_runs_on_witness :
  ∃ s',
    Player.play_macro_loop three_clicks 2 1 true Player.boot = (true, s') ∧
    loop_reaches three_clicks 2 1
      (Player.LWhile 0) (Player.self s') (Player.listeners s')
      (concat (replicate 3 (iteration_actions 2 1 three_clicks)))
      (Player.LWhile 3) (Player.self s') (Player.listeners s') ∧
    ∃ st out,
      Replay.run_loop three_clicks 2 1 50
        (Player.LWhile 0) (Player.self s') (Player.listeners s') =
        (st, Player.self s', Player.listeners s', out) ∧
      leaving st = false.
Proof.
  apply (loop_replay_runs_on three_clicks 2 1 true Player.boot 3 50).
  - discriminate.
  - repeat constructor; by eexists.
  - reflexivity.
  - reflexivity.
Defined.


(** X6: once both flags are cleared, a loop worker that is still in its
    loop is done within eight steps, whatever the events, the speed and the
    delay: it clears the flags, stops the current listener, and dispatches
    at most one more event, and that only when it was asleep before an
    event or about to dispatch one. *)
Theorem loop_replay_cancelled (events : list event) (speed delay : Q)
    (self : Player.MacroPlayer) (ls : list Player.listener) (st : Player.lstate) :
  Player.playing self = false →
  Player.loop_playing self = false →
  leaving st = false →
  ∃ fuel c out,
    (fuel ≤ 8)%nat ∧
    Replay.run_loop events speed delay fuel st self ls =
      (Player.LDone c,
       Player.set_playing false (Player.set_loop_playing false self),
       Player.stop_current_listener self ls, out) ∧
    (dispatches out ≤ 1)%nat ∧
    (dispatches out = 1%nat →
     (∃ c e rest t w, st = Player.LSleep c e rest t w) ∨
     (∃ c e rest t, st = Player.LExec c e rest t)).
Proof.
  intros Hp Hlp Hst.
  destruct (loop_cancelled events speed delay self ls st Hp Hlp Hst)
    as (fuel & c & out & Hfuel & Hrun & Hle & Hone).
  exists fuel, c, out. split_and!; try done.
  intros Hd. destruct (Hone Hd) as [x [(c' & e & rest & t & w & -> & _)|
                                        (c' & e & rest & t & -> & _)]]; eauto 10.
Qed.

Lemma loop_replay_cancelled_witness :
  ∃ fuel c out,
    (fuel ≤ 8)%nat ∧
    Replay.run_loop three_clicks 2 1 fuel
      (Player.LSleep 1 (click_at 1 false) [click_at 2 true] 1 (1 # 2))
      cancelled_player
      [{| Player.global_hotkeys := true; Player.running := true |}] =
      (Player.LDone c,
       Player.set_playing false (Player.set_loop_playing false cancelled_player),
       Player.stop_current_listener cancelled_player
         [{| Player.global_hotkeys := true; Player.running := true |}], out) ∧
    (dispatches out ≤ 1)%nat ∧
    (dispatches out = 1%nat →
     (∃ c e rest t w,
        Player.LSleep 1 (click_at 1 false) [click_at 2 true] 1 (1 # 2)
          = Player.LSleep c e rest t w) ∨
     (∃ c e rest t,
        Player.LSleep 1 (click_at 1 false) [click_at 2 true] 1 (1 # 2)
          = Player.LExec c e rest t)).
Proof.
  apply (loop_replay_cancelled three_clicks 2 1 cancelled_player); reflexivity.
Defined.


(** X7: a loop replay with speed 0 of a list whose first event carries an
    offset ends in its first iteration: the division raises, the error is
    printed, nothing is dispatched, and the worker clears both flags and
    stops the listener. *)
Theorem loop_replay_zero_speed (events : list event) (speed delay : Q)
    (self : Player.MacroPlayer) (ls : list Player.listener)
    (e : event) (rest : list event) (c : nat) :
  (speed == 0)%Q → events = e :: rest → timed e →
  Player.playing self = true → Player.loop_playing self = true →
  loop_reaches events speed delay (Player.LWhile c) self ls
    [Player.Print ZeroDivisionError]
    (Player.LDone (S c))
    (Player.set_playing false (Player.set_loop_playing false self))
    (Player.stop_current_listener self ls).
Proof.
  intros Hsp Hev [t Ht] Hp Hlp.
  eapply (loop_reaches_step _ _ _ _ _ _ _ _ _ []).
  { cbn. rewrite Hlp. reflexivity. }
  eapply (loop_reaches_step _ _ _ _ _ _ _ _ _ []).
  { cbn. rewrite Hp. reflexivity. }
  assert (Hstep : ∀ l, l = e :: rest →
            Player.step_loop events speed delay (Player.LFor (S c) l 0) self ls =
              (Player.LFor' (S c) e rest 0, self, ls, [])).
  { intros l ->. cbn. by rewrite Hlp. }
  eapply (loop_reaches_step _ _ _ _ _ _ _ _ _ []); [exact (Hstep events Hev)|].
  eapply (loop_reaches_step _ _ _ _ _ _ _ _ _ []).
  { cbn. rewrite Hp. cbn. rewrite (wait_time_zero speed e t 0 Ht Hsp). reflexivity. }
  eapply (loop_reaches_step _ _ _ _ _ _ _ _ _ [Player.Print _]); [reflexivity|].
  eapply (loop_reaches_step _ _ _ _ _ _ _ _ _ []); [reflexivity|].
  eapply (loop_reaches_step _ _ _ _ _ _ _ _ _ []); [reflexivity|].
  eapply (loop_reaches_step _ _ _ _ _ _ _ _ _ [] []); [reflexivity|].
  apply loop_reaches_refl.
Qed.

Lemma loop_replay_zero_speed_witness :
  loop_reaches three_clicks 0 1 (Player.LWhile 0)
    (Player.set_playing true (Player.set_loop_playing true Player.init)) []
    [Player.Print ZeroDivisionError]
    (Player.LDone 1)
    (Player.set_playing false (Player.set_loop_playing false
       (Player.set_playing true (Player.set_loop_playing true Player.init))))
    (Player.stop_current_listener
       (Player.set_playing true (Player.set_loop_playing true Player.init)) []).
Proof.
  apply (loop_replay_zero_speed three_clicks 0 1 _ []
           (click_at 0 true) [click_at 1 false; click_at 2 true] 0).
  - reflexivity.
  - reflexivity.
  - by eexists.
  - reflexivity.
  - reflexivity.
Defined.


(** X8: a finite replay whose events carry numeric offsets up to one that
    does not (the key is missing, or its value is no number) replays the
    events before that one, prints the error and ends: the later events
    and the remaining passes are not replayed, and the session flag is
    cleared. *)
Theorem finite_replay_aborts (good rest : list event) (bad : event)
    (speed : Q) (todo : nat) (self : Player.MacroPlayer) :
  ¬ (speed == 0)%Q →
  Forall timed good →
  timestamp_of bad = None →
  Player.playing self = true →
  ∃ err,
    (err = KeyError "timestamp" ∨ err = TypeError) ∧
    reaches (good ++ bad :: rest) speed (Player.FOuter (S todo)) self
      (pass_actions speed 0 good ++ [Player.Print err])
      Player.FDone (Player.set_playing false self).
Proof.
  intros Hsp Hgood Hbad Hp.
  destruct (pass_aborts (good ++ bad :: rest) speed self todo bad rest Hp Hsp Hbad good 0 Hgood)
    as (err & Herr & Hrun).
  exists err. split; [done|].
  eapply (reaches_step _ _ _ _ _ _ []); [|exact Hrun].
  cbn. by rewrite Hp.
Qed.

Lemma finite_replay_aborts_witness :
  ∃ err,
    (err = KeyError "timestamp" ∨ err = TypeError) ∧
    reaches ([click_at 0 true] ++ untimed_click :: [click_at 2 true]) 1
      (Player.FOuter (S 2)) (Player.set_playing true Player.init)
      (pass_actions 1 0 [click_at 0 true] ++ [Player.Print err])
      Player.FDone (Player.set_playing false (Player.set_playing true Player.init)).
Proof.
  apply (finite_replay_aborts [click_at 0 true] [click_at 2 true] untimed_click 1 2).
  - discriminate.
  - repeat constructor; by eexists.
  - reflexivity.
  - reflexivity.
Defined.


(** X9: the worker that [play_macro] starts takes at most
    [repeat * (3 * len(events) + 2) + 2] steps, whatever the events and the
    speed, and whatever the other threads do meanwhile: further calls,
    [stop_playback], the hotkey. *)
Theorem finite_replay_terminates (events : list event) (speed : Q) (repeat : Z)
    (s s1 s2 : Player.system) (sched : list Player.choice) :
  Player.playing (Player.self s) = false →
  Player.exec (Player.CallPlay events speed repeat) s = Some s1 →
  Player.run sched s1 = Some s2 →
  (runs_of (length (Player.threads s)) sched
   ≤ Z.to_nat repeat * (3 * length events + 2) + 2)%nat.
Proof.
  intros Hp Hex Hrun. cbn in Hex.
  destruct (Player.is_idle s); [|done]. injection Hex as <-.
  destruct (play_macro_idle events speed repeat s Hp) as (s' & Hplay & _ & _ & Hth & _).
  rewrite Hplay in Hrun. cbn in Hrun.
  exact (finite_runs_bounded sched _ _ _ _ _ _ _ Hth Hrun).
Qed.

Lemma finite_replay_terminates_witness :
  ∃ s1 s2,
    Player.exec (Player.CallPlay three_clicks 1 2) Player.boot = Some s1 ∧
    Player.run (tl disturbed_replay) s1 = Some s2 ∧
    (runs_of (length (Player.threads Player.boot)) (tl disturbed_replay)
     ≤ Z.to_nat 2 * (3 * length three_clicks + 2) + 2)%nat.
Proof.
  eexists _, _. split; [vm_compute; reflexivity|].
  split; [vm_compute; reflexivity|].
  eapply (finite_replay_terminates three_clicks 1 2 Player.boot);
    vm_compute; reflexivity.
Defined.


(** X10: [stop_playback] returns.  Called with a worker in
    [self.play_thread], finite or loop, wherever that worker stands, the
    worker finishes within a bounded number of its own steps once the flags
    are cleared, so that the [join] ends; on return the control thread is
    free again and both flags are cleared. *)
Theorem stop_playback_returns (s : Player.system) (tid : nat) (w : Player.worker) :
  Player.is_idle s = true →
  Player.play_thread (Player.self s) = Some tid →
  Player.threads s !! tid = Some w →
  ∃ k s1 s2,
    (k ≤ worker_steps_left w)%nat ∧
    Player.run (Player.CallStop :: replicate k (Player.Run tid)) s = Some s1 ∧
    Player.stop_playback_return s1 = Some s2 ∧
    Player.control_thread s2 = Player.Idle ∧
    Player.playing (Player.self s2) = false ∧
    Player.loop_playing (Player.self s2) = false.
Proof.
  intros Hidle Hpt Hw.
  destruct (drain (worker_steps_left w) (Player.stop_playback_enter s) tid w)
    as (k & s1 & w' & Hk & Hrun & Hw' & Hf & Hctl & Hp & Hlp); try done.
  exists k, s1. unfold Player.stop_playback_return.
  rewrite Hctl. cbn [Player.stop_playback_enter Player.control_thread
                     Player.set_loop_playing Player.set_playing Player.play_thread].
  rewrite Hpt, Hw', Hf. eexists. split; [done|]. split.
  { cbn [Player.run Player.exec]. by rewrite Hidle. }
  split; [reflexivity|]. done.
Qed.

Lemma stop_playback_returns_witness :
  ∃ s w,
    Player.run (firstn 5 play_then_stop) Player.boot = Some s ∧
    Player.threads s !! 0%nat = Some w ∧
    ∃ k s1 s2,
      (k ≤ worker_steps_left w)%nat ∧
      Player.run (Player.CallStop :: replicate k (Player.Run 0)) s = Some s1 ∧
      Player.stop_playback_return s1 = Some s2 ∧
      Player.control_thread s2 = Player.Idle ∧
      Player.playing (Player.self s2) = false ∧
      Player.loop_playing (Player.self s2) = false.
Proof.
  eexists _, _. split; [vm_compute; reflexivity|]. split; [reflexivity|].
  eapply stop_playback_returns; reflexivity.
Defined.


(** X11: [stop_playback] on a player without a running worker (none was
    started, or the one in [self.play_thread] has finished) returns at
    once: no thread is started or removed, both flags are cleared, and the
    player is again without a running worker. *)
Theorem stop_playback_when_idle (s : Player.system) :
  Player.is_idle s = true →
  no_live_worker s →
  ∃ s1 s2,
    Player.exec Player.CallStop s = Some s1 ∧
    Player.exec Player.ReturnStop s1 = Some s2 ∧
    Player.threads s2 = Player.threads s ∧
    Player.playing (Player.self s2) = false ∧
    Player.loop_playing (Player.self s2) = false ∧
    Player.trace s2 = Player.trace s ++ [Player.StopReturned] ∧
    Player.is_idle s2 = true ∧ no_live_worker s2.
Proof.
  intros Hidle Hlive. cbn [Player.exec]. rewrite Hidle.
  eexists _, _. split; [reflexivity|].
  unfold Player.stop_playback_return, no_live_worker in *. cbn.
  destruct (Player.play_thread (Player.self s)) as [t|] eqn:Hpt.
  - destruct Hlive as (w & Hw & Hf). rewrite Hw, Hf.
    split; [reflexivity|]. cbn. rewrite Hpt. split_and!; try done. eauto.
  - split; [reflexivity|]. cbn. rewrite Hpt. done.
Qed.

Lemma stop_playback_when_idle_witness :
  ∃ s1 s2,
    Player.exec Player.CallStop Player.boot = Some s1 ∧
    Player.exec Player.ReturnStop s1 = Some s2 ∧
    Player.threads s2 = Player.threads Player.boot ∧
    Player.playing (Player.self s2) = false ∧
    Player.loop_playing (Player.self s2) = false ∧
    Player.trace s2 = Player.trace Player.boot ++ [Player.StopReturned] ∧
    Player.is_idle s2 = true ∧ no_live_worker s2.
Proof.
  apply (stop_playback_when_idle Player.boot); [reflexivity|exact I].
Defined.

(** * Replay: what a stored event does *)

Section Dispatch.
Variable mouse_Button keyboard_Key : string → bool.

Lemma parse_recorded_key (k : Recorder.key) :
  resolvable_key keyboard_Key k →
  Player._parse_key keyboard_Key (Recorder.key_symbol k) =
    match k with
    | Recorder.KeyCode (Some c) => Ok (Player.Literal c)
    | Recorder.KeyCode None => Raise TypeError
    | Recorder.Key name => Ok (Player.Special name)
    end.
Proof.
  destruct k as [[c|]|name]; cbn [resolvable_key].
  - intros Hlen. unfold Player._parse_key. cbn. by rewrite Hlen.
  - done.
  - intros [Hd Hk].
    cbn [Recorder.key_symbol Recorder.key_char_attr Recorder.key_str].
    unfold Player._parse_key. cbn [len mbind result_bind Py.bind].
    rewrite length_append. cbn [String.length Nat.add Nat.eqb].
    replace (Player.startswith "Key." ("Key." +:+ name)) with true
      by (cbn; by destruct name).
    by rewrite (after_last_dot_key _ Hd), Hk.
Qed.

(** The event a notification is stored as replays as that notification. *)
Lemma execute_recorded (time_time : nat → Q) (self self' : Recorder.MacroRecorder)
    (nt : Recorder.notification) (n n' : nat) (e : event) :
  Recorder.recording self = true →
  Recorder.deliver time_time self nt n = Ok (self', n') →
  Recorder.events self' = Recorder.events self ++ [e] →
  replayable mouse_Button keyboard_Key nt →
  Player._execute_event mouse_Button keyboard_Key e = replays_as nt.
Proof.
  intros Hrec Hd He Hok.
  assert (Hts : ∀ m, ∃ v m', Recorder._get_timestamp time_time self m = Ok (v, m')).
  { intros m. destruct (get_timestamp_spec time_time self m) as (v & m' & H & _). eauto. }
  assert (Hsame : ∀ e0, Recorder.events self ++ [e0] = Recorder.events self ++ [e] → e0 = e).
  { intros e0 H. by apply app_inj_tail in H as [_ ?]. }
  destruct nt as [x y b p|x y|x y dx dy|k|k]; cbn [Recorder.deliver] in Hd.
  - unfold Recorder._on_mouse_click in Hd. rewrite Hrec in Hd.
    unfold Recorder.seq in Hd. destruct (Hts n) as (v & m & Hg). rewrite Hg in Hd.
    injection Hd as <- <-. cbn in He. apply Hsame in He as <-.
    cbn in Hok. unfold Player._execute_event, Player.position_of, getitem,
      Player.lookup_button, Player.type_is.
    simplify_map_eq. rewrite Hok. cbn. by destruct p.
  - unfold Recorder._on_mouse_move in Hd. rewrite Hrec in Hd.
    unfold Recorder.seq in Hd.
    destruct (Recorder.move_condition time_time self n) as [[[] n1]|]; [| |done].
    + destruct (Hts n1) as (v & m & Hg). rewrite Hg in Hd.
      injection Hd as <- <-. cbn in He. apply Hsame in He as <-.
      unfold Player._execute_event, Player.position_of, getitem, Player.type_is.
      by simplify_map_eq.
    + injection Hd as <- <-. apply (f_equal length) in He.
      rewrite length_app in He. cbn in He. lia.
  - unfold Recorder._on_mouse_scroll in Hd. rewrite Hrec in Hd.
    unfold Recorder.seq in Hd. destruct (Hts n) as (v & m & Hg). rewrite Hg in Hd.
    injection Hd as <- <-. cbn in He. apply Hsame in He as <-.
    unfold Player._execute_event, Player.position_of, getitem, Player.type_is.
    by simplify_map_eq.
  - unfold Recorder._on_key_press in Hd. rewrite Hrec in Hd.
    unfold Recorder.seq in Hd. destruct (Hts n) as (v & m & Hg). rewrite Hg in Hd.
    injection Hd as <- <-. cbn in He. apply Hsame in He as <-.
    cbn in Hok. unfold Player._execute_event, getitem, Player.type_is.
    simplify_map_eq. cbn [mbind result_bind Py.bind].
    rewrite (parse_recorded_key k Hok). by destruct k as [[c|]|name].
  - unfold Recorder._on_key_release in Hd. rewrite Hrec in Hd.
    unfold Recorder.seq in Hd. destruct (Hts n) as (v & m & Hg). rewrite Hg in Hd.
    injection Hd as <- <-. cbn in He. apply Hsame in He as <-.
    cbn in Hok. unfold Player._execute_event, getitem, Player.type_is.
    simplify_map_eq. cbn [mbind result_bind Py.bind].
    rewrite (parse_recorded_key k Hok). by destruct k as [[c|]|name].
Qed.
End Dispatch.


(** X12: the event the recorder stores for a notification is replayed by
    [_execute_event] as the device calls of what was done: the pointer set
    to the position and the button pressed or released, the wheel scrolled,
    the key pressed or released; provided the controllers know the button
    or the key. *)
Theorem recorded_event_replays (mouse_Button keyboard_Key : string → bool)
    (time_time : nat → Q) (self self' : Recorder.MacroRecorder)
    (nt : Recorder.notification) (n n' : nat) (e : event) :
  Recorder.recording self = true →
  Recorder.deliver time_time self nt n = Ok (self', n') →
  Recorder.events self' = Recorder.events self ++ [e] →
  replayable mouse_Button keyboard_Key nt →
  Player._execute_event mouse_Button keyboard_Key e = replays_as nt.
Proof. apply execute_recorded. Qed.

Lemma recorded_event_replays_witness :
  Player._execute_event sample_buttons sample_keys
    {[ "type" := VStr "mouse_click"; "timestamp" := VFloat (tick 0 - 1);
       "x" := VInt 3; "y" := VInt 4;
       "button" := VStr "Button.left"; "pressed" := VBool true ]} =
  replays_as (Recorder.OnClick (VInt 3) (VInt 4) "Button.left" true).
Proof.
  apply (recorded_event_replays sample_buttons sample_keys tick capturing
           (Recorder.append capturing
              {[ "type" := VStr "mouse_click"; "timestamp" := VFloat (tick 0 - 1);
                 "x" := VInt 3; "y" := VInt 4;
                 "button" := VStr "Button.left"; "pressed" := VBool true ]})
           (Recorder.OnClick (VInt 3) (VInt 4) "Button.left" true) 0 1);
    reflexivity.
Defined.


(** X13: [_execute_event] never raises and issues at most two device
    calls.  An event without ['type'] does nothing; a click with a button
    the controller does not know still moves the pointer but neither
    presses nor releases; a pointer event without ['x'] or ['y'] does
    nothing; a key event whose ['key'] is no string does nothing. *)
Theorem dispatch_failures_contained (mouse_Button keyboard_Key : string → bool)
    (e : event) :
  (length (Player._execute_event mouse_Button keyboard_Key e) ≤ 2)%nat ∧
  (e !! "type" = None → Player._execute_event mouse_Button keyboard_Key e = []) ∧
  (∀ x y b,
     e !! "type" = Some (VStr "mouse_click") →
     e !! "x" = Some x → e !! "y" = Some y → e !! "button" = Some (VStr b) →
     mouse_Button (Player.after_last_dot b) = false →
     Player._execute_event mouse_Button keyboard_Key e = [Player.SetPosition x y]) ∧
  (∀ ty, e !! "type" = Some ty →
     (e !! "x" = None ∨ e !! "y" = None) →
     ty = VStr "mouse_click" ∨ ty = VStr "mouse_move" ∨ ty = VStr "mouse_scroll" →
     Player._execute_event mouse_Button keyboard_Key e = []) ∧
  (∀ ty k, e !! "type" = Some ty → e !! "key" = Some k →
     ty = VStr "key_press" ∨ ty = VStr "key_release" →
     (∀ s, k ≠ VStr s) →
     Player._execute_event mouse_Button keyboard_Key e = []).
Proof.
  split_and!.
  - unfold Player._execute_event, Player.calls_then, Player.position_of.
    repeat case_match; cbn; try lia;
      unfold mbind, result_bind, Py.bind in *;
      repeat case_match; simplify_eq; cbn; lia.
  - intros H. unfold Player._execute_event, getitem. by rewrite H.
  - intros x y b Hty Hx Hy Hb Hm.
    unfold Player._execute_event, Player.position_of, getitem, Player.type_is.
    rewrite Hty, Hx, Hy, Hb. cbn. by rewrite Hm.
  - intros ty Hty Hxy Hk.
    unfold Player._execute_event, Player.position_of, getitem, Player.type_is.
    rewrite Hty.
    destruct Hk as [->|[->| ->]], Hxy as [H|H]; rewrite H; cbn;
      by destruct (e !! "x").
  - intros ty k Hty Hkey Hk Hns.
    unfold Player._execute_event, getitem, Player.type_is. rewrite Hty, Hkey.
    destruct Hk as [->| ->]; cbn; destruct k; try done; by destruct (Hns s).
Qed.

Example odd_click_only_moves :
  Player._execute_event sample_buttons sample_keys odd_click =
    [Player.SetPosition (VInt 10) (VInt 20)].
Proof. reflexivity. Qed.

(** * The store: overwriting, deleting and listing *)

Section Names.

Lemma append_cancel_r (s a b : string) : a +:+ s = b +:+ s → a = b.
Proof.
  revert b. induction a as [|x a IH]; intros [|y b] H.
  - done.
  - apply (f_equal String.length) in H.
    change ("" +:+ s) with s in H.
    rewrite append_cons in H. cbn [String.length] in H.
    rewrite length_append in H. lia.
  - apply (f_equal String.length) in H.
    change ("" +:+ s) with s in H.
    rewrite append_cons in H. cbn [String.length] in H.
    rewrite length_append in H. lia.
  - rewrite !append_cons in H. injection H as -> H. f_equal. by apply IH.
Qed.

Lemma filepath_inj (self : Manager.MacroManager) (a b : string) :
  Manager.filepath self a = Manager.filepath self b → a = b.
Proof.
  unfold Manager.filepath. intros H.
  apply String.app_inj in H. apply String.app_inj in H.
  by apply append_cancel_r in H.
Qed.

Lemma drop_prefix_app (p s : string) : Catalog.drop_prefix p (p +:+ s) = Some s.
Proof.
  induction p as [|a p IH]; [done|].
  rewrite append_cons. cbn. by rewrite Ascii.eqb_refl.
Qed.

Lemma endswith_app (suffix a : string) : Catalog.endswith suffix (a +:+ suffix) = true.
Proof.
  induction a as [|x a IH].
  - change ("" +:+ suffix) with suffix.
    destruct suffix; cbn [Catalog.endswith]; by rewrite String.eqb_refl.
  - rewrite append_cons. cbn [Catalog.endswith]. rewrite IH. apply orb_true_r.
Qed.

Lemma has_slash_app (a b : string) :
  Catalog.has_slash (a +:+ b) = Catalog.has_slash a || Catalog.has_slash b.
Proof.
  induction a as [|x a IH]; [done|].
  rewrite append_cons. cbn. rewrite IH. by rewrite orb_assoc.
Qed.

Lemma in_glob_filepath (self : Manager.MacroManager) (name : string) :
  Catalog.has_slash name = false →
  Catalog.in_glob self (Manager.filepath self name) = true.
Proof.
  intros Hs. unfold Catalog.in_glob, Manager.filepath.
  rewrite drop_prefix_app.
  change ("/" +:+ name +:+ ".json") with (String "/" (name +:+ ".json")).
  cbv iota beta. rewrite has_slash_app, Hs, endswith_app. done.
Qed.
End Names.

Section Listing.
Import Manager.

Lemma omap_cons {A B} (f : A → option B) (x : A) (l : list A) :
  omap f (x :: l) = match f x with Some y => y :: omap f l | None => omap f l end.
Proof. reflexivity. Qed.

Lemma list_macros_listed (self : MacroManager) (fs : filesystem) :
  (Catalog.list_macros self fs).1 = omap (listed self) (map_to_list (files fs)).
Proof.
  unfold Catalog.list_macros.
  induction (map_to_list (files fs)) as [|pc l IH]; [done|].
  destruct pc as [p c]. cbn [foldr]. rewrite omap_cons. unfold listed at 1.
  cbn [fst snd]. destruct (Catalog.in_glob self p); [|by rewrite IH].
  destruct (Catalog.summarize c); cbn [fst snd]; by rewrite IH.
Qed.

Lemma list_macros_printed (self : MacroManager) (fs : filesystem) :
  (Catalog.list_macros self fs).2 =
  omap (λ pc : string * content,
          if Catalog.in_glob self pc.1 then
            match Catalog.summarize pc.2 with Some _ => None | None => Some pc.1 end
          else None)
       (map_to_list (files fs)).
Proof.
  unfold Catalog.list_macros.
  induction (map_to_list (files fs)) as [|pc l IH]; [done|].
  destruct pc as [p c]. cbn [foldr]. rewrite omap_cons.
  cbn [fst snd]. destruct (Catalog.in_glob self p); [|by rewrite IH].
  destruct (Catalog.summarize c); cbn [fst snd]; by rewrite IH.
Qed.

Lemma omap_perm {A B} (f : A → option B) (l l' : list A) :
  l ≡ₚ l' → omap f l ≡ₚ omap f l'.
Proof.
  induction 1 as [|x l l' _ IH|x y l|l l1 l2 _ IH1 _ IH2]; cbn.
  - done.
  - destruct (f x); by rewrite IH.
  - destruct (f x), (f y); try done. apply perm_swap.
  - by rewrite IH1.
Qed.

Lemma elem_of_list_macros (self : MacroManager) (fs : filesystem) (x : Catalog.summary) :
  x ∈ (Catalog.list_macros self fs).1 ↔
  ∃ path d, files fs !! path = Some (Json d) ∧ Catalog.in_glob self path = true ∧
            Catalog.summarize (Json d) = Some x.
Proof.
  rewrite list_macros_listed, list_elem_of_omap. unfold listed. split.
  - intros ([path c] & Hin & Hsum). apply elem_of_map_to_list in Hin. cbn in *.
    destruct (Catalog.in_glob self path) eqn:Hg; [|done].
    destruct c as [d|]; [|done]. by exists path, d.
  - intros (path & d & Hf & Hg & Hsum). exists (path, Json d).
    split; [by apply elem_of_map_to_list|]. cbn. by rewrite Hg.
Qed.

Lemma elem_of_printed (self : MacroManager) (fs : filesystem) (path : string) :
  path ∈ (Catalog.list_macros self fs).2 ↔
  files fs !! path = Some Unreadable ∧ Catalog.in_glob self path = true.
Proof.
  rewrite list_macros_printed, list_elem_of_omap. split.
  - intros ([p c] & Hin & Hsum). apply elem_of_map_to_list in Hin. cbn in *.
    destruct (Catalog.in_glob self p) eqn:Hg; [|done].
    destruct c as [d|]; [done|]. cbn in Hsum. by injection Hsum as <-.
  - intros [Hf Hg]. exists (path, Unreadable).
    split; [by apply elem_of_map_to_list|]. cbn. by rewrite Hg.
Qed.

(** Writing a file changes the list by the entry of that file alone. *)
Lemma list_macros_insert (self : MacroManager) (fs : filesystem)
    (path : string) (c : content) :
  (Catalog.list_macros self
     {| files := <[path := c]> (files fs); refused := refused fs |}).1 ≡ₚ
  from_option (λ x, [x]) [] (listed self (path, c)) ++
  (Catalog.list_macros self
     {| files := delete path (files fs); refused := refused fs |}).1.
Proof.
  rewrite !list_macros_listed. cbn [files].
  rewrite <- (insert_delete_eq (files fs) path c).
  rewrite (omap_perm _ _ _
             (map_to_list_insert (delete path (files fs)) path c
                (lookup_delete_eq _ _))).
  rewrite omap_cons. by destruct (listed self (path, c)).
Qed.

(** Removing a file changes the list by the entry of that file alone. *)
Lemma list_macros_delete (self : MacroManager) (fs : filesystem)
    (path : string) (c : content) :
  files fs !! path = Some c →
  (Catalog.list_macros self fs).1 ≡ₚ
  from_option (λ x, [x]) [] (listed self (path, c)) ++
  (Catalog.list_macros self
     {| files := delete path (files fs); refused := refused fs |}).1.
Proof.
  intros Hf. rewrite !list_macros_listed. cbn [files].
  rewrite <- (omap_perm _ _ _ (map_to_list_delete _ path c Hf)).
  rewrite omap_cons. by destruct (listed self (path, c)).
Qed.
End Listing.

Section StoreMore.
Import Manager.

Lemma save_macro_inv (self : MacroManager) (now : datetime)
    (name description : string) (events : list event) (fs : filesystem)
    (path : string) (fs' : filesystem) :
  save_macro self now name events description fs = Ok (path, fs') →
  path = filepath self name ∧
  (filepath self name ∉ refused fs) ∧
  fs' = {| files := <[filepath self name :=
                        Json {| name := name; description := description;
                                created := isoformat now; events := events |}]>
                    (files fs);
           refused := refused fs |}.
Proof.
  unfold save_macro, write_json. case_bool_decide as Hr; [done|].
  cbn. by intros [= <- <-].
Qed.

Lemma save_twice (self : MacroManager) (now1 now2 : datetime)
    (name d1 d2 : string) (ev1 ev2 : list event) (fs : filesystem)
    (p1 : string) (fs1 : filesystem) :
  save_macro self now1 name ev1 d1 fs = Ok (p1, fs1) →
  save_macro self now2 name ev2 d2 fs1 = save_macro self now2 name ev2 d2 fs.
Proof.
  intros H. apply save_macro_inv in H as (_ & Hr & ->).
  unfold save_macro, write_json. cbn [refused files].
  rewrite !bool_decide_eq_false_2 by done. cbn.
  by rewrite insert_insert_eq.
Qed.

Lemma auto_save_macro_inv (self : MacroManager) (now now' : datetime)
    (events : list event) (fs : filesystem) (path : string) (fs' : filesystem) :
  events ≠ [] →
  auto_save_macro self now now' events fs = Ok (path, fs') →
  ∃ description,
    (∀ fs0, auto_save_macro self now now' events fs0 =
            save_macro self now' ("macro_" +:+ strftime_Ymd_HMS now) events
              description fs0).
Proof.
  intros Hne H. destruct events as [|e rest]; [done|].
  unfold auto_save_macro in *.
  destruct (count_mouse_clicks (e :: rest)) as [c|]; [|done].
  destruct (count_key_presses (e :: rest)) as [k|]; [|done].
  destruct (duration_of (e :: rest)) as [d|]; [|done].
  cbn [mbind result_bind Py.bind] in *. eexists. intros fs0. reflexivity.
Qed.

Lemma delete_macro_files (self : MacroManager) (name : string) (fs : filesystem) :
  files (delete_macro self name fs).2 = delete (filepath self name) (files fs) ∧
  refused (delete_macro self name fs).2 = refused fs.
Proof.
  unfold delete_macro.
  destruct (files fs !! filepath self name) eqn:E; cbn; [done|].
  by rewrite delete_id.
Qed.

Lemma list_macros_files (self : MacroManager) (fs fs' : filesystem) :
  files fs = files fs' → Catalog.list_macros self fs = Catalog.list_macros self fs'.
Proof. unfold Catalog.list_macros. by intros ->. Qed.
End StoreMore.


(** X14: [delete_macro] answers True exactly when the file of the name
    exists; afterwards [load_macro] of that name returns None and a second
    [delete_macro] answers False and changes nothing; no other file is
    touched. *)
Theorem delete_macro_removes_one (self : Manager.MacroManager) (name : string)
    (fs : Manager.filesystem) :
  let r := Manager.delete_macro self name fs in
  r.1 = bool_decide (is_Some (Manager.files fs !! Manager.filepath self name)) ∧
  Manager.load_macro self name r.2 = Ok None ∧
  Manager.delete_macro self name r.2 = (false, r.2) ∧
  Manager.refused r.2 = Manager.refused fs ∧
  ∀ path, path ≠ Manager.filepath self name →
          Manager.files r.2 !! path = Manager.files fs !! path.
Proof.
  cbn zeta.
  destruct (delete_macro_files self name fs) as [Hf Hr].
  split_and!.
  - unfold Manager.delete_macro.
    destruct (Manager.files fs !! Manager.filepath self name) eqn:E;
      cbn [fst]; symmetry.
    + by apply bool_decide_eq_true_2.
    + apply bool_decide_eq_false_2. by intros [? ?].
  - unfold Manager.load_macro. by rewrite Hf, lookup_delete_eq.
  - unfold Manager.delete_macro at 1. by rewrite Hf, lookup_delete_eq.
  - exact Hr.
  - intros path Hne. by rewrite Hf, lookup_delete_ne.
Qed.


(** X15: saving under a name that is in use replaces the stored sequence
    without any error: the store is the one a single save of the second
    sequence would have given, and [load_macro] returns the second
    sequence. *)
Theorem save_macro_overwrites (self : Manager.MacroManager)
    (now1 now2 : Manager.datetime) (name d1 d2 : string) (ev1 ev2 : list event)
    (fs : Manager.filesystem) (p1 : string) (fs1 : Manager.filesystem) :
  Manager.save_macro self now1 name ev1 d1 fs = Ok (p1, fs1) →
  ∃ fs2,
    Manager.save_macro self now2 name ev2 d2 fs1 = Ok (p1, fs2) ∧
    Manager.save_macro self now2 name ev2 d2 fs = Ok (p1, fs2) ∧
    Manager.load_macro self name fs2 =
      Ok (Some {| Manager.name := name; Manager.description := d2;
                  Manager.created := Manager.isoformat now2;
                  Manager.events := ev2 |}).
Proof.
  intros H. rewrite (save_twice _ _ _ _ _ _ _ _ _ _ _ H).
  apply save_macro_inv in H as (-> & Hr & _).
  destruct (save_then_load self now2 name d2 ev2 fs Hr) as (fs2 & Hs & Hl).
  by exists fs2.
Qed.

Lemma save_macro_overwrites_witness :
  ∃ fs2,
    Manager.save_macro Manager.init sample_later "demo" three_clicks "three"
      {| Manager.files :=
           {[ "macros/demo.json" :=
                Manager.Json {| Manager.name := "demo"; Manager.description := "two";
                                Manager.created := Manager.isoformat sample_now;
                                Manager.events := press_release |} ]};
         Manager.refused := ∅ |} = Ok ("macros/demo.json", fs2) ∧
    Manager.save_macro Manager.init sample_later "demo" three_clicks "three" empty_disk
      = Ok ("macros/demo.json", fs2) ∧
    Manager.load_macro Manager.init "demo" fs2 =
      Ok (Some {| Manager.name := "demo"; Manager.description := "three";
                  Manager.created := Manager.isoformat sample_later;
                  Manager.events := three_clicks |}).
Proof.
  apply (save_macro_overwrites Manager.init sample_now sample_later "demo" "two"
           "three" press_release three_clicks empty_disk).
  reflexivity.
Defined.


(** X16: saving under one name leaves every other name as it was:
    [load_macro] returns the same and [delete_macro] gives the same answer.
    The names are taken without a path separator, which [Path.__truediv__]
    would resolve. *)
Theorem save_macro_keeps_other_names (self : Manager.MacroManager)
    (now : Manager.datetime) (name other description : string)
    (events : list event) (fs : Manager.filesystem)
    (path : string) (fs' : Manager.filesystem) :
  Catalog.has_slash name = false → Catalog.has_slash other = false →
  other ≠ name →
  Manager.save_macro self now name events description fs = Ok (path, fs') →
  Manager.load_macro self other fs' = Manager.load_macro self other fs ∧
  (Manager.delete_macro self other fs').1 = (Manager.delete_macro self other fs).1.
Proof.
  intros _ _ Hne H. apply save_macro_inv in H as (-> & _ & ->).
  assert (Hp : Manager.filepath self name ≠ Manager.filepath self other).
  { intros Heq. by apply filepath_inj in Heq. }
  split.
  - unfold Manager.load_macro. cbn. by rewrite lookup_insert_ne.
  - unfold Manager.delete_macro. cbn. rewrite lookup_insert_ne by done.
    by destruct (Manager.files fs !! Manager.filepath self other).
Qed.

Lemma save_macro_keeps_other_names_witness :
  Manager.load_macro Manager.init "good"
    {| Manager.files :=
         <["macros/demo.json" :=
             Manager.Json {| Manager.name := "demo"; Manager.description := "two";
                             Manager.created := Manager.isoformat sample_now;
                             Manager.events := press_release |}]>
           (Manager.files mixed_disk);
       Manager.refused := ∅ |} =
    Manager.load_macro Manager.init "good" mixed_disk ∧
  (Manager.delete_macro Manager.init "good"
     {| Manager.files :=
          <["macros/demo.json" :=
              Manager.Json {| Manager.name := "demo"; Manager.description := "two";
                              Manager.created := Manager.isoformat sample_now;
                              Manager.events := press_release |}]>
            (Manager.files mixed_disk);
        Manager.refused := ∅ |}).1 =
    (Manager.delete_macro Manager.init "good" mixed_disk).1.
Proof.
  apply (save_macro_keeps_other_names Manager.init sample_now "demo" "good" "two"
           press_release mixed_disk "macros/demo.json"); try reflexivity.
  discriminate.
Defined.


(** X17: two autosaves whose clock readings fall in the same second use
    the same file: the second replaces the first recording, and the store
    is the one the second autosave alone would have given. *)
Theorem auto_save_same_second_overwrites (self : Manager.MacroManager)
    (now1 now1' now2 now2' : Manager.datetime) (ev1 ev2 : list event)
    (fs fs1 fs2 : Manager.filesystem) (p1 p2 : string) :
  ev1 ≠ [] → ev2 ≠ [] →
  Manager.strftime_Ymd_HMS now1 = Manager.strftime_Ymd_HMS now2 →
  Manager.auto_save_macro self now1 now1' ev1 fs = Ok (p1, fs1) →
  Manager.auto_save_macro self now2 now2' ev2 fs1 = Ok (p2, fs2) →
  p2 = p1 ∧
  Manager.auto_save_macro self now2 now2' ev2 fs = Ok (p2, fs2) ∧
  ∃ d, Manager.load_macro self ("macro_" +:+ Manager.strftime_Ymd_HMS now1) fs2
         = Ok (Some d) ∧
       Manager.events d = ev2.
Proof.
  intros Hne1 Hne2 Hsec H1 H2.
  destruct (auto_save_macro_inv _ _ _ _ _ _ _ Hne1 H1) as (d1 & E1).
  destruct (auto_save_macro_inv _ _ _ _ _ _ _ Hne2 H2) as (d2 & E2).
  rewrite E1 in H1. rewrite E2 in H2 |- *. rewrite <- Hsec in H2 |- *.
  rewrite (save_twice _ _ _ _ _ _ _ _ _ _ _ H1) in H2.
  apply save_macro_inv in H1 as (-> & _ & _).
  pose proof H2 as H2'. apply save_macro_inv in H2' as (-> & _ & ->).
  split; [done|]. split; [done|].
  eexists. split.
  - unfold Manager.load_macro. cbn. by rewrite lookup_insert_eq.
  - reflexivity.
Qed.

Lemma auto_save_same_second_overwrites_witness :
  ∃ p1 fs1 p2 fs2,
    Manager.auto_save_macro Manager.init sample_now sample_now press_release empty_disk
      = Ok (p1, fs1) ∧
    Manager.auto_save_macro Manager.init sample_later sample_later three_clicks fs1
      = Ok (p2, fs2) ∧
    p2 = p1 ∧
    Manager.auto_save_macro Manager.init sample_later sample_later three_clicks
      empty_disk = Ok (p2, fs2) ∧
    ∃ d, Manager.load_macro Manager.init
           ("macro_" +:+ Manager.strftime_Ymd_HMS sample_now) fs2 = Ok (Some d) ∧
         Manager.events d = three_clicks.
Proof.
  eexists _, _, _, _. split; [reflexivity|]. split; [reflexivity|].
  eapply (auto_save_same_second_overwrites Manager.init sample_now sample_now
            sample_later sample_later press_release three_clicks empty_disk);
    try reflexivity; discriminate.
Defined.


(** X18: after [save_macro] under a name without a path separator,
    [list_macros] returns the entries of the other files and exactly one
    entry for that name, with the name, the description, the creation time
    and the number of events that were saved, whether or not the name was
    in use before. *)
Theorem saved_macro_listed_once (self : Manager.MacroManager)
    (now : Manager.datetime) (name description : string) (events : list event)
    (fs : Manager.filesystem) (path : string) (fs' : Manager.filesystem) :
  Catalog.has_slash name = false →
  Manager.save_macro self now name events description fs = Ok (path, fs') →
  (Catalog.list_macros self fs').1 ≡ₚ
  {| Catalog.name := name; Catalog.description := description;
     Catalog.created := Manager.isoformat now;
     Catalog.events_count := length events |} ::
  (Catalog.list_macros self (Manager.delete_macro self name fs).2).1.
Proof.
  intros Hs H. apply save_macro_inv in H as (-> & _ & ->).
  rewrite list_macros_insert. unfold listed. cbn [fst snd].
  rewrite (in_glob_filepath self name Hs). cbn.
  apply Permutation_cons; [done|].
  erewrite list_macros_files; [reflexivity|].
  cbn. by destruct (delete_macro_files self name fs) as [-> _].
Qed.

Lemma saved_macro_listed_once_witness :
  (Catalog.list_macros Manager.init
     {| Manager.files :=
          <["macros/good.json" :=
              Manager.Json {| Manager.name := "good"; Manager.description := "again";
                              Manager.created := Manager.isoformat sample_later;
                              Manager.events := three_clicks |}]>
            (Manager.files mixed_disk);
        Manager.refused := ∅ |}).1 ≡ₚ
  {| Catalog.name := "good"; Catalog.description := "again";
     Catalog.created := Manager.isoformat sample_later;
     Catalog.events_count := 3 |} ::
  (Catalog.list_macros Manager.init
     (Manager.delete_macro Manager.init "good" mixed_disk).2).1.
Proof.
  apply (saved_macro_listed_once Manager.init sample_later "good" "again"
           three_clicks mixed_disk "macros/good.json"); reflexivity.
Defined.


(** X19: deleting a stored sequence removes exactly its entry from what
    [list_macros] returns. *)
Theorem deleted_macro_unlisted (self : Manager.MacroManager) (name : string)
    (d : Manager.macro_data) (fs : Manager.filesystem) :
  Catalog.has_slash name = false →
  Manager.files fs !! Manager.filepath self name = Some (Manager.Json d) →
  (Catalog.list_macros self fs).1 ≡ₚ
  {| Catalog.name := Manager.name d; Catalog.description := Manager.description d;
     Catalog.created := Manager.created d;
     Catalog.events_count := length (Manager.events d) |} ::
  (Catalog.list_macros self (Manager.delete_macro self name fs).2).1.
Proof.
  intros Hs Hf. rewrite (list_macros_delete self fs _ _ Hf).
  unfold listed. cbn [fst snd]. rewrite (in_glob_filepath self name Hs). cbn.
  apply Permutation_cons; [done|].
  erewrite list_macros_files; [reflexivity|].
  cbn. by destruct (delete_macro_files self name fs) as [-> _].
Qed.

Lemma deleted_macro_unlisted_witness :
  (Catalog.list_macros Manager.init mixed_disk).1 ≡ₚ
  {| Catalog.name := "good"; Catalog.description := "";
     Catalog.created := "2025-07-02T14:30:45";
     Catalog.events_count := 2 |} ::
  (Catalog.list_macros Manager.init
     (Manager.delete_macro Manager.init "good" mixed_disk).2).1.
Proof.
  apply (deleted_macro_unlisted Manager.init "good"
           {| Manager.name := "good"; Manager.description := "";
              Manager.created := "2025-07-02T14:30:45";
              Manager.events := press_release |} mixed_disk); reflexivity.
Defined.


(** X20: a file of the directory that is no JSON document makes
    [load_macro] raise, while [list_macros] prints its path and returns the
    entries of the other files. *)
Theorem unreadable_file_skipped (self : Manager.MacroManager) (name : string)
    (fs : Manager.filesystem) :
  Catalog.has_slash name = false →
  Manager.files fs !! Manager.filepath self name = Some Manager.Unreadable →
  Manager.load_macro self name fs = Raise JSONDecodeError ∧
  Manager.filepath self name ∈ (Catalog.list_macros self fs).2 ∧
  (Catalog.list_macros self fs).1 ≡ₚ
    (Catalog.list_macros self (Manager.delete_macro self name fs).2).1.
Proof.
  intros Hs Hf. split_and!.
  - unfold Manager.load_macro. by rewrite Hf.
  - apply elem_of_printed. split; [done|]. by apply in_glob_filepath.
  - rewrite (list_macros_delete self fs _ _ Hf).
    unfold listed. cbn [fst snd]. rewrite (in_glob_filepath self name Hs). cbn.
    erewrite list_macros_files; [reflexivity|].
    cbn. by destruct (delete_macro_files self name fs) as [-> _].
Qed.

Lemma unreadable_file_skipped_witness :
  Manager.load_macro Manager.init "bad" mixed_disk = Raise JSONDecodeError ∧
  Manager.filepath Manager.init "bad" ∈ (Catalog.list_macros Manager.init mixed_disk).2 ∧
  (Catalog.list_macros Manager.init mixed_disk).1 ≡ₚ
    (Catalog.list_macros Manager.init
       (Manager.delete_macro Manager.init "bad" mixed_disk).2).1.
Proof.
  apply (unreadable_file_skipped Manager.init "bad" mixed_disk); reflexivity.
Defined.

(** * From the recorder to the player *)

Section CaptureStore.
Import Recorder.
Variable time_time : nat → Q.

Lemma summarizable_well_formed (l : list event) :
  Forall summarizable l → Forall well_formed l.
Proof. intros H. eapply Forall_impl; [exact H|]. by intros e [Hw _]. Qed.

(** Every stored event has the fields the summary of the autosave reads. *)
Lemma deliver_all_summarizable (ns : list notification) :
  ∀ (self : MacroRecorder) (n : nat),
  recording self = true → Forall summarizable (events self) →
  ∃ self' n',
    deliver_all time_time self ns n = Ok (self', n') ∧
    recording self' = true ∧
    Forall summarizable (events self').
Proof.
  induction ns as [|nt ns IH]; intros self n Hrec Hs.
  - by exists self, n.
  - destruct (deliver_shape time_time self nt n Hrec (summarizable_well_formed _ Hs))
      as (s1 & n1 & Hd & _ & Hcase).
    cbn [deliver_all]. unfold seq. rewrite Hd.
    destruct Hcase as [[_ ->]|(e & m & -> & Hty & Hts & _ & _ & Hp)].
    + by apply IH.
    + apply IH; [exact Hrec|].
      cbn. apply Forall_app. split; [done|]. constructor; [|done].
      split; [by eapply shape_well_formed|].
      rewrite Hty. intros [= Hk]. by apply Hp.
Qed.

Lemma session_summarizable (r0 r : MacroRecorder) (ns : list notification)
    (n n' : nat) :
  recording r0 = false →
  session time_time r0 ns n = Ok (r, n') →
  recording r = true ∧ Forall summarizable (events r).
Proof.
  intros Hrec0.
  unfold session, Recorder.seq, start_recording. rewrite Hrec0. cbn.
  set (s0 := {| events := [] |}).
  destruct (deliver_all_summarizable ns s0 (S n))
    as (r' & m & Hrun & Hrec & Hs); [done|constructor|].
  rewrite Hrun. by intros [= <- <-].
Qed.
End CaptureStore.

Section ServerRoutes.

Lemma play_saved_macro_found (req : Server.play_saved_request) (a : Routes.app)
    (player : Player.system) (d : Manager.macro_data) :
  Manager.load_macro (Routes.manager a) (Routes.get (Server.req_name req) "")
    (Routes.disk a) = Ok (Some d) →
  Server.play_saved_macro req a player = plays (Manager.events d) req player.
Proof.
  intros Hl. unfold Server.play_saved_macro, plays. rewrite Hl.
  unfold Player.play_macro. by destruct (Player.playing (Player.self player)).
Qed.
End ServerRoutes.





(** X22: from capture to replay.  When [/stop_recording] ends a session
    that stored something and the file can be written, it answers with the
    recorded events and prints the path of the autosave, and
    [/play_saved_macro] with the name of the autosave then does what
    [play_macro] does on the recorded events. *)
Theorem stopped_recording_replays (time_time : nat → Q)
    (ns : list Recorder.notification) (n n' : nat) (r0 r : Recorder.MacroRecorder)
    (now now' : Manager.datetime) (a : Routes.app)
    (req : Server.play_saved_request) (player : Player.system) :
  Recorder.recording r0 = false →
  session time_time r0 ns n = Ok (r, n') →
  Routes.recorder a = r →
  Recorder.events r ≠ [] →
  Manager.filepath (Routes.manager a) ("macro_" +:+ Manager.strftime_Ymd_HMS now)
    ∉ Manager.refused (Routes.disk a) →
  Server.req_name req = Some ("macro_" +:+ Manager.strftime_Ymd_HMS now) →
  let '(response, printed, a') := Routes.stop_recording now now' a in
  Routes.success response = true ∧
  Routes.events response = Recorder.events r ∧
  printed = [Routes.AutoSaved
               (Manager.filepath (Routes.manager a)
                  ("macro_" +:+ Manager.strftime_Ymd_HMS now))] ∧
  Server.play_saved_macro req a' player = plays (Recorder.events r) req player.
Proof.
  intros Hrec0 Hses Hr Hne Hw Hname.
  destruct (session_summarizable time_time r0 r ns n n' Hrec0 Hses) as [Hrec Hs].
  unfold Routes.stop_recording, Recorder.stop_recording.
  rewrite Hr, Hrec. cbn [negb andb Recorder.events].
  rewrite bool_decide_eq_false_2 by done. cbn [negb].
  destruct (Recorder.events r) as [|e rest] eqn:Hev; [done|].
  unfold Manager.auto_save_macro.
  rewrite (count_mouse_clicks_spec _ Hs). cbn [mbind result_bind Py.bind].
  rewrite (count_key_presses_spec _ Hs). cbn [mbind result_bind Py.bind].
  rewrite (duration_of_spec _ Hs). cbn [mbind result_bind Py.bind].
  destruct (save_then_load (Routes.manager a) now'
              ("macro_" +:+ Manager.strftime_Ymd_HMS now)
              (summary (e :: rest)) (e :: rest) (Routes.disk a) Hw)
    as (fs' & Hsave & Hload).
  unfold summary in Hsave. rewrite Hsave. split_and!; try done.
  eapply eq_trans.
  - eapply play_saved_macro_found.
    cbn [Routes.manager Routes.disk]. rewrite Hname. exact Hload.
  - reflexivity.
Qed.

Lemma stopped_recording_replays_witness :
  ∃ r n',
    session tick Recorder.init sample_notifications 0 = Ok (r, n') ∧
    let a := {| Routes.recorder := r; Routes.manager := Manager.init;
                Routes.disk := empty_disk |} in
    let req := replay_request "macro_20250702_143045" in
    let '(response, printed, a') := Routes.stop_recording sample_now sample_later a in
    Routes.success response = true ∧
    Routes.events response = Recorder.events r ∧
    printed = [Routes.AutoSaved
                 (Manager.filepath (Routes.manager a)
                    ("macro_" +:+ Manager.strftime_Ymd_HMS sample_now))] ∧
    Server.play_saved_macro req a' Player.boot =
      plays (Recorder.events r) req Player.boot.
Proof.
  eexists _, _. split; [reflexivity|]. cbv zeta.
  eapply (stopped_recording_replays tick sample_notifications 0 _ Recorder.init _
            sample_now sample_later _ (replay_request "macro_20250702_143045")
            Player.boot).
  - reflexivity.
  - reflexivity.
  - reflexivity.
  - discriminate.
  - apply not_elem_of_empty.
  - reflexivity.
Defined.


(** X23: [/save_macro] stores a sequence under the name with the blanks
    around it removed: the path it answers with is that of the stripped
    name, and [/play_saved_macro] with the stripped name replays the events
    of the request. *)
Theorem route_saved_name_is_stripped (now : Manager.datetime)
    (req : Routes.save_request) (a a' : Routes.app) (raw path : string)
    (preq : Server.play_saved_request) (player : Player.system) :
  Routes.req_name req = Some (VStr raw) →
  Routes.save_macro now req a = (Routes.Saved path, a') →
  Server.req_name preq = Some (Routes.rstrip (Routes.lstrip raw)) →
  path = Manager.filepath (Routes.manager a) (Routes.rstrip (Routes.lstrip raw)) ∧
  Server.play_saved_macro preq a' player =
    plays (Routes.get (Routes.req_events req) []) preq player.
Proof.
  intros Hname Hsave Hp. unfold Routes.save_macro in Hsave.
  rewrite Hname in Hsave. cbn [Routes.get Routes.strip] in Hsave.
  cbn [mbind result_bind Py.bind] in Hsave.
  destruct (Routes.strip (Routes.get (Routes.req_description req) (VStr "")))
    as [description|]; cbn [mbind result_bind Py.bind] in Hsave; [|done].
  destruct (String.eqb _ ""); [done|].
  destruct (Manager.save_macro _ _ _ _ _ _) as [[p fs']|] eqn:Hs;
    cbn [mbind result_bind Py.bind] in Hsave; [|done].
  injection Hsave as <- <-.
  apply save_macro_inv in Hs as (-> & _ & ->). split; [done|].
  eapply eq_trans.
  - eapply play_saved_macro_found. rewrite Hp.
    unfold Manager.load_macro. cbn. rewrite lookup_insert_eq. reflexivity.
  - reflexivity.
Qed.

Lemma route_saved_name_is_stripped_witness :
  ∃ a',
    Routes.save_macro sample_now padded_save (fresh_app empty_disk) =
      (Routes.Saved "macros/demo.json", a') ∧
    "macros/demo.json" = Manager.filepath Manager.init "demo" ∧
    Server.play_saved_macro (replay_request "demo") a' Player.boot =
      plays press_release (replay_request "demo") Player.boot.
Proof.
  eexists. split; [reflexivity|].
  apply (route_saved_name_is_stripped sample_now padded_save (fresh_app empty_disk)
           _ " demo " "macros/demo.json" (replay_request "demo") Player.boot);
    reflexivity.
Defined.

(** The name as it was sent, with its blanks, is not found. *)
Example padded_name_not_found :
  ∃ a',
    Routes.save_macro sample_now padded_save (fresh_app empty_disk) =
      (Routes.Saved "macros/demo.json", a') ∧
    Server.play_saved_macro (replay_request " demo ") a' Player.boot =
      (Server.NotFound, Player.boot) ∧
    (Server.delete_macro (Some " demo ") a').1 = false.
Proof. eexists. split; [reflexivity|]. split; reflexivity. Qed.


(** X24: after [/delete_macro] of a name, [/play_saved_macro] of that name
    answers that the sequence is not found and leaves the player as it is,
    and a second [/delete_macro] answers False; the recorder is not
    touched. *)
Theorem deleted_macro_not_played (name : option string) (speed : option Q)
    (repeat : option Z) (a : Routes.app) (player : Player.system) :
  let a' := (Server.delete_macro name a).2 in
  Server.play_saved_macro
    {| Server.req_name := name; Server.req_speed := speed;
       Server.req_repeat := repeat |} a' player = (Server.NotFound, player) ∧
  (Server.delete_macro name a').1 = false ∧
  Routes.recorder a' = Routes.recorder a.
Proof.
  cbn zeta. unfold Server.delete_macro, Server.play_saved_macro.
  destruct (delete_macro_files (Routes.manager a) (Routes.get name "") (Routes.disk a))
    as [Hf Hr].
  destruct (Manager.delete_macro (Routes.manager a) (Routes.get name "") (Routes.disk a))
    as [ok disk'] eqn:Hd. cbn [fst snd] in *.
  cbn [Routes.manager Routes.disk Server.req_name].
  unfold Manager.load_macro, Manager.delete_macro.
  rewrite Hf, lookup_delete_eq. done.
Qed.
